(** * prbot: a shallow embedding of [main.go]

    prbot resolves the [master] branch of a GitHub repository, lists its
    tree, picks the Go files, runs gofmt over each of them in its own
    goroutine, and, when some file changed, forks the repository and
    opens a pull request (fork, tree, commit, branch, pull request).

    The program is embedded as functions in a small trace-and-halt monad:
    every observable action (text on stderr, a log line, a file read, a
    call of the GitHub client) is an [event] of the trace, and a run ends
    either by returning from [main] or by halting ([os.Exit],
    [log.Fatalf], a nil dereference).  The answers of the outside world
    (file system, GitHub, [format.Source]) are the fields of a [World]. *)

From Stdlib Require Import ZArith Ascii String.
From Stdlib.Strings Require Import Byte.
From stdpp Require Import base option list strings pretty.

Local Open Scope string_scope.
Local Open Scope list_scope.

(** ** Go values *)

(** A Go [string] is a sequence of bytes: [string]; a [[]byte] is a
    [list byte]; [string(b)] is [string_of_list_byte]. *)
Definition bytes := list byte.

#[global] Instance byte_eq_decision : EqDecision byte := Byte.byte_eq_dec.

(** [error] values are only ever printed with [%v]: they are modelled by
    their text. *)
Definition error := string.

(** A Go call returning [(T, error)]. *)
Inductive res (A : Type) : Type :=
| Ok (a : A)
| Err (e : error).
Arguments Ok {A} a.
Arguments Err {A} e.

Definition newline : string := String "010"%char EmptyString.

(** [s[n:]] on a string. *)
Fixpoint string_drop (n : nat) (s : string) : string :=
  match n, s with
  | O, _ => s
  | S n', String _ s' => string_drop n' s'
  | S _, EmptyString => EmptyString
  end.

(** The first [n] bytes of [s] (the [%.7s] verb; hashes are hexadecimal, so
    runes are bytes). *)
Fixpoint string_take (n : nat) (s : string) : string :=
  match n, s with
  | O, _ => EmptyString
  | S n', String a s' => String a (string_take n' s')
  | S _, EmptyString => EmptyString
  end.

(** [strings.HasSuffix]:
    [len(s) >= len(suffix) && s[len(s)-len(suffix):] == suffix]. *)
Definition HasSuffix (s suffix : string) : bool :=
  (String.length suffix <=? String.length s)%nat
  && String.eqb (string_drop (String.length s - String.length suffix) s) suffix.

(** [strings.Split(s, sep)] for a separator of one byte: the pieces of [s]
    between the occurrences of [sep], one more piece than occurrences. *)
Fixpoint Split (s : string) (sep : ascii) : list string :=
  match s with
  | EmptyString => [EmptyString]
  | String a s' =>
      if Ascii.eqb a sep then EmptyString :: Split s' sep
      else match Split s' sep with
           | [] => [String a EmptyString]
           | piece :: pieces => String a piece :: pieces
           end
  end.

(** [strings.Count(s, sep)] for a separator of one byte. *)
Fixpoint Count (s : string) (sep : ascii) : nat :=
  match s with
  | EmptyString => 0
  | String a s' => (if Ascii.eqb a sep then 1 else 0) + Count s' sep
  end.

(** ** The go-github types, with the fields the program uses

    Every field is a pointer in go-github: [None] is the nil pointer. *)

Record TreeEntry := {
  SHA : option string;
  Path : option string;
  Mode : option string;
  Type_ : option string;
  Size : option Z;
  Content : option string
}.

Record Tree := {
  tree_SHA : option string;
  tree_Entries : list TreeEntry
}.

Record GitObject := {
  obj_Type : option string;
  obj_SHA : option string
}.

Record Reference := {
  ref_Ref : option string;
  ref_Object : option GitObject
}.

Record User := { user_Login : option string }.

Record Repository := {
  repo_Name : option string;
  repo_Owner : option User;
  repo_HTMLURL : option string
}.

#[warnings="-register-all"]
Inductive Commit := {
  commit_SHA : option string;
  commit_Message : option string;
  commit_Tree : option Tree;
  commit_Parents : list Commit
}.

Record NewPullRequest := {
  npr_Title : option string;
  npr_Head : option string;
  npr_Base : option string;
  npr_Body : option string
}.

Record PullRequest := { pr_HTMLURL : option string }.

(** An [http.Request] as built by [gh.NewRequest] and [Header.Set]. *)
Record Request := {
  req_Method : string;
  req_URL : string;
  req_Header : list (string * string)
}.

(** [req.Header.Set(k, v)]: replaces the values of [k]. *)
Definition Header_Set (k v : string) (req : Request) : Request :=
  {| req_Method := req_Method req;
     req_URL := req_URL req;
     req_Header :=
       (k, v) :: List.filter (fun kv => negb (String.eqb (fst kv) k)) (req_Header req) |}.

(** ** Events, and the monad of traces *)

Inductive event :=
| EStderr (text : string)
| ELog (text : string)
| EReadFile (path : string)
| EGetRef (owner repo ref : string)
| EGetTree (owner repo sha : string) (recursive : bool)
| EDo (req : Request)
| ECreateFork (owner repo : string)
| ECreateTree (owner repo baseTree : string) (entries : list TreeEntry)
| ECreateCommit (owner repo : string) (commit : Commit)
| ECreateRef (owner repo : string) (ref : Reference)
| ECreatePullRequest (owner repo : string) (pull : NewPullRequest).

(** How a run stops before the end of [main]. *)
Inductive halt :=
| Exit (code : Z)
| NilDeref.

Inductive outcome (A : Type) : Type :=
| Ret (a : A)
| Halt (h : halt).
Arguments Ret {A} a.
Arguments Halt {A} h.

Definition M (A : Type) : Type := list event * outcome A.

Definition ret {A} (a : A) : M A := ([], Ret a).

Definition bind {A B} (m : M A) (k : A -> M B) : M B :=
  match m with
  | (t, Ret a) => let '(t', r) := k a in (t ++ t', r)
  | (t, Halt h) => (t, Halt h)
  end.

Arguments bind : simpl never.

Declare Scope prbot_scope.
Delimit Scope prbot_scope with prbot.
Notation "x <- m ;;; k" := (bind m (fun x => k))
  (at level 100, m at next level, right associativity) : prbot_scope.
Notation "m ;;; k" := (bind m (fun _ => k))
  (at level 100, right associativity) : prbot_scope.
Local Open Scope prbot_scope.

Definition emit (e : event) : M unit := ([e], Ret tt).
Definition halt_with {A} (h : halt) : M A := ([], Halt h).

(** [log.Printf]: the formatted text is the event. *)
Definition log_Printf (text : string) : M unit := emit (ELog text).

(** [log.Fatalf]: [Printf], then [os.Exit(1)]. *)
Definition log_Fatalf {A} (text : string) : M A :=
  log_Printf text ;;; halt_with (Exit 1).

(** [*p]: a nil pointer stops the program. *)
Definition deref {A} (p : option A) : M A :=
  match p with
  | Some a => ret a
  | None => halt_with NilDeref
  end.

(** The exit status of the process. *)
Definition exit_status {A} (r : outcome A) : Z :=
  match r with
  | Ret _ => 0
  | Halt (Exit code) => code
  | Halt NilDeref => 2
  end.

Definition trace {A} (m : M A) : list event := fst m.
Definition result {A} (m : M A) : outcome A := snd m.

(** ** The outside world

    Each answer is a function of the request: asked twice the same thing,
    the world answers twice the same. *)

Record World := {
  Getenv : string -> string;
  filepath_Join : string -> string -> string;
  ReadFile : string -> res bytes;
  format_Source : bytes -> res bytes;
  gh_NewRequest : string -> string -> res Request;
  gh_Do : Request -> res bytes;
  Git_GetRef : string -> string -> string -> res Reference;
  Git_GetTree : string -> string -> string -> bool -> res Tree;
  Repositories_CreateFork : string -> string -> res Repository;
  Git_CreateTree : string -> string -> string -> list TreeEntry -> res Tree;
  Git_CreateCommit : string -> string -> Commit -> res Commit;
  Git_CreateRef : string -> string -> Reference -> res Reference;
  PullRequests_Create : string -> string -> NewPullRequest -> res PullRequest
}.

(** ** [main.go] *)

(** Lines 24-27.  No flag is defined, so [flag.PrintDefaults] prints
    nothing. *)
Definition usage : M unit :=
  emit (EStderr ("usage: prbot <user/repo>" +:+ newline)).

(** Lines 33-42, on the positional arguments left by [flag.Parse]. *)
Definition parse_args (args : list string) : M (string * string) :=
  if negb (length args =? 1)%nat then usage ;;; halt_with (Exit 1)
  else
    let parts := Split (List.nth 0 args EmptyString) "/"%char in
    if negb (length parts =? 2)%nat then usage ;;; halt_with (Exit 1)
    else ret (List.nth 0 parts EmptyString, List.nth 1 parts EmptyString).

Definition branch : string := "master".

(** Lines 74-84: the loop over [tree.Entries], [goFiles] being the slice
    built so far. *)
Fixpoint select_loop (entries goFiles : list TreeEntry) : M (list TreeEntry) :=
  match entries with
  | [] => ret goFiles
  | te :: rest =>
      ty <- deref (Type_ te) ;;;
      if String.eqb ty "blob" then
        path <- deref (Path te) ;;;
        if HasSuffix path ".go" then
          match Size te with
          | Some size =>
              if (size >? Z.shiftl 1 20)%Z then
                log_Printf ("Warning: Skipping " +:+ path +:+ " because it is too big") ;;;
                select_loop rest goFiles
              else select_loop rest (goFiles ++ [te])
          | None => select_loop rest (goFiles ++ [te])
          end
        else select_loop rest goFiles
      else select_loop rest goFiles
  end.

Definition select_candidates (entries : list TreeEntry) : M (list TreeEntry) :=
  select_loop entries [].

(** Lines 190-204. *)
Definition rawBlob (w : World) (owner repo sha1 : string) : M (res bytes) :=
  let u := "repos/" +:+ owner +:+ "/" +:+ repo +:+ "/git/blobs/" +:+ sha1 in
  match gh_NewRequest w "GET" u with
  | Err e => ret (Err e)
  | Ok req =>
      let req := Header_Set "Accept" "application/vnd.github.v3.raw" req in
      emit (EDo req) ;;;
      match gh_Do w req with
      | Err e => ret (Err e)
      | Ok buf => ret (Ok buf)
      end
  end.

(** Lines 92-101: [add], on the shared slice [changes]. *)
Definition add (base : TreeEntry) (newContents : string)
    (changes : list TreeEntry) : list TreeEntry :=
  changes ++ [ {| SHA := None;
                  Path := Path base;
                  Mode := Mode base;
                  Type_ := Type_ base;
                  Size := None;
                  Content := Some newContents |} ].

(** Lines 105-125: the body of the goroutine of candidate [te].  Its only
    access to shared state is the call of [add], under the mutex; it is run
    here in one piece against the current [changes]. *)
Definition worker (w : World) (owner repo : string) (te : TreeEntry)
    (changes : list TreeEntry) : M (list TreeEntry) :=
  path <- deref (Path te) ;;;
  sha <- deref (SHA te) ;;;
  let abbr := path +:+ " " +:+ string_take 7 sha in
  fetched <- rawBlob w owner repo sha ;;;
  match fetched with
  | Err e =>
      log_Printf ("Fetching blob (" +:+ abbr +:+ "): " +:+ e) ;;;
      ret changes
  | Ok input =>
      match format_Source w input with
      | Err e =>
          log_Printf ("Bad Go source (" +:+ abbr +:+ "): " +:+ e) ;;;
          log_Printf (string_of_list_byte input +:+ newline) ;;;
          ret changes
      | Ok out =>
          if bool_decide (input = out) then ret changes
          else
            log_Printf ("(" +:+ abbr +:+ ") needs gofmt'ing!") ;;;
            ret (add te (string_of_list_byte out) changes)
      end
  end.

(** ** The goroutines (lines 102-127)

    One goroutine per candidate is started, and [wg.Wait] returns when all
    of them are done.  The order in which they reach the mutex is not fixed
    by the program: it is a parameter, a list of choices, each one picking
    (modulo their number) one of the goroutines still to run. *)

Record Pool := {
  pending : list TreeEntry;
  changes : list TreeEntry
}.

Definition pool_step (w : World) (owner repo : string) (choice : nat)
    (st : Pool) : M Pool :=
  let i := choice mod length (pending st) in
  match pending st !! i with
  | None => ret st
  | Some te =>
      changes' <- worker w owner repo te (changes st) ;;;
      ret {| pending := delete i (pending st); changes := changes' |}
  end.

Fixpoint pool_steps (w : World) (owner repo : string) (n : nat)
    (sched : list nat) (st : Pool) : M Pool :=
  match n with
  | O => ret st
  | S n' =>
      st' <- pool_step w owner repo (hd 0 sched) st ;;;
      pool_steps w owner repo n' (tl sched) st'
  end.

Definition run_pool (w : World) (owner repo : string) (sched : list nat)
    (goFiles : list TreeEntry) : M (list TreeEntry) :=
  st <- pool_steps w owner repo (length goFiles) sched
          {| pending := goFiles; changes := [] |} ;;;
  ret (changes st).

(** ** [main] (lines 29-188) *)

(** The pattern [x, _, err := f(...); if err != nil { log.Fatalf("what: %v", err) }]. *)
Definition call {A} (e : event) (r : res A) (what : string) : M A :=
  emit e ;;;
  match r with
  | Ok a => ret a
  | Err err => log_Fatalf (what +:+ ": " +:+ err)
  end.

Definition prBranch : string := "prbot-gofmt".

(** What [main] holds when the goroutines are done (line 128). *)
Record Found := {
  f_origCommit : string;
  f_tree : Tree;
  f_goFiles : list TreeEntry;
  f_changes : list TreeEntry
}.

(** Lines 44-73: the token, the branch and the tree.  Building the oauth2
    and GitHub clients (lines 49-54) sends nothing. *)
Definition fetch_tree (w : World) (owner repo : string) : M (string * Tree) :=
  let tokenFile := filepath_Join w (Getenv w "HOME") ".prbot-token" in
  _ <- call (EReadFile tokenFile) (ReadFile w tokenFile) "Reading auth token" ;;;
  log_Printf ("Resolving branch " +:+ branch +:+ " in github.com/"
              +:+ owner +:+ "/" +:+ repo +:+ " ...") ;;;
  ref <- call (EGetRef owner repo ("refs/heads/" +:+ branch))
              (Git_GetRef w owner repo ("refs/heads/" +:+ branch)) "Getting ref" ;;;
  obj <- deref (ref_Object ref) ;;;
  ty <- deref (obj_Type obj) ;;;
  if negb (String.eqb ty "commit")
  then log_Fatalf ("branch " +:+ branch +:+ " does not point at a commit")
  else
    origCommit <- deref (obj_SHA obj) ;;;
    log_Printf ("Fetching tree for github.com/" +:+ owner +:+ "/" +:+ repo
                +:+ " @ " +:+ origCommit +:+ " ...") ;;;
    tree <- call (EGetTree owner repo origCommit true)
                 (Git_GetTree w owner repo origCommit true) "Getting tree" ;;;
    treeSHA <- deref (tree_SHA tree) ;;;
    log_Printf ("Original tree with " +:+ pretty (length (tree_Entries tree))
                +:+ " entries: " +:+ treeSHA +:+ " ...") ;;;
    ret (origCommit, tree).

(** Lines 44-128: up to the end of the goroutines. *)
Definition discover (w : World) (sched : list nat) (owner repo : string) : M Found :=
  fetched <- fetch_tree w owner repo ;;;
  let origCommit := fst fetched in
  let tree := snd fetched in
  goFiles <- select_candidates (tree_Entries tree) ;;;
  log_Printf ("Found " +:+ pretty (length goFiles) +:+ " Go source files") ;;;
  changes <- run_pool w owner repo sched goFiles ;;;
  log_Printf ("Found " +:+ pretty (length changes)
              +:+ " Go source files that need changes") ;;;
  ret {| f_origCommit := origCommit; f_tree := tree;
         f_goFiles := goFiles; f_changes := changes |}.

(** Lines 133-187: fork, tree, commit, branch, pull request.  A pointer
    dereferenced several times by the source is dereferenced once here. *)
Definition assemble (w : World) (owner repo : string) (found : Found) : M unit :=
  log_Printf "Creating fork ..." ;;;
  fork <- call (ECreateFork owner repo)
               (Repositories_CreateFork w owner repo) "Creating fork" ;;;
  forkURL <- deref (repo_HTMLURL fork) ;;;
  log_Printf ("Fork URL: " +:+ forkURL) ;;;
  log_Printf "Creating new tree ..." ;;;
  forkOwner <- deref (repo_Owner fork) ;;;
  login <- deref (user_Login forkOwner) ;;;
  name <- deref (repo_Name fork) ;;;
  treeSHA <- deref (tree_SHA (f_tree found)) ;;;
  newTree <- call (ECreateTree login name treeSHA (f_changes found))
                  (Git_CreateTree w login name treeSHA (f_changes found))
                  "Creating tree" ;;;
  newTreeSHA <- deref (tree_SHA newTree) ;;;
  log_Printf ("New tree: " +:+ newTreeSHA) ;;;
  log_Printf "Creating commit ..." ;;;
  let commit :=
    {| commit_SHA := None;
       commit_Message := Some "Run gofmt over Go source files.";
       commit_Tree := Some {| tree_SHA := tree_SHA newTree; tree_Entries := [] |};
       commit_Parents :=
         [ {| commit_SHA := Some (f_origCommit found); commit_Message := None;
              commit_Tree := None; commit_Parents := [] |} ] |} in
  comm <- call (ECreateCommit login name commit)
               (Git_CreateCommit w login name commit) "Creating commit" ;;;
  commSHA <- deref (commit_SHA comm) ;;;
  log_Printf ("Commit: " +:+ commSHA) ;;;
  log_Printf "Creating branch ..." ;;;
  let newRef :=
    {| ref_Ref := Some ("refs/heads/" +:+ prBranch);
       ref_Object := Some {| obj_Type := Some "commit"; obj_SHA := commit_SHA comm |} |} in
  _ <- call (ECreateRef login name newRef)
            (Git_CreateRef w login name newRef) "Creating branch" ;;;
  log_Printf ("Branch URL: " +:+ forkURL +:+ "/tree/" +:+ prBranch) ;;;
  log_Printf "Creating pull request ..." ;;;
  let pull :=
    {| npr_Title := Some "gofmt everything";
       npr_Head := Some (login +:+ ":" +:+ prBranch);
       npr_Base := Some branch;
       npr_Body := Some "I ran gofmt over this repository using prbot, an automated tool." |} in
  pr <- call (ECreatePullRequest owner repo pull)
             (PullRequests_Create w owner repo pull) "Creating pull request" ;;;
  prURL <- deref (pr_HTMLURL pr) ;;;
  log_Printf ("Pull request: " +:+ prURL).

(** Lines 44-188, [owner] and [repo] being known. *)
Definition run (w : World) (sched : list nat) (owner repo : string) : M unit :=
  found <- discover w sched owner repo ;;;
  if (length (f_changes found) =? 0)%nat then ret tt
  else assemble w owner repo found.

Definition main (w : World) (sched : list nat) (args : list string) : M unit :=
  parsed <- parse_args args ;;;
  run w sched (fst parsed) (snd parsed).

(** ** A sample repository

    A world in which [u/r] has five Go files: [a.go] and [c.go] are
    gofmt'ed, [b.go] is not, the blob of [d.go] cannot be fetched, and
    [e.go] does not parse; besides them a directory, a text file, and a Go
    file above the size limit. *)
Module Demo.

Definition blob (path sha : string) (size : option Z) : TreeEntry :=
  {| SHA := Some sha; Path := Some path; Mode := Some "100644";
     Type_ := Some "blob"; Size := size; Content := None |}.

Definition a_go := blob "a.go" "aaaaaaaaaa" (Some 10%Z).
Definition b_go := blob "pkg/b.go" "bbbbbbbbbb" None.
Definition c_go := blob "c.go" "cccccccccc" (Some 1048576%Z).
Definition d_go := blob "d.go" "dddddddddd" (Some 7%Z).
Definition e_go := blob "e.go" "eeeeeeeeee" (Some 3%Z).
Definition big_go := blob "big.go" "ffffffffff" (Some 1048577%Z).
Definition readme := blob "README.md" "9999999999" (Some 14%Z).
Definition pkg_dir : TreeEntry :=
  {| SHA := Some "8888888888"; Path := Some "pkg"; Mode := Some "040000";
     Type_ := Some "tree"; Size := None; Content := None |}.

Definition entries : list TreeEntry :=
  [a_go; pkg_dir; b_go; readme; big_go; c_go; d_go; e_go].

Definition blob_url (sha : string) : string := "repos/u/r/git/blobs/" +:+ sha.

Definition world : World :=
  {| Getenv := fun _ => "/home/bot";
     filepath_Join := fun dir file => dir +:+ "/" +:+ file;
     ReadFile := fun _ => Ok (list_byte_of_string "s3cr3t");
     format_Source := fun src =>
       if bool_decide (src = list_byte_of_string "package  b") then
         Ok (list_byte_of_string "package b")
       else if bool_decide (src = list_byte_of_string "package") then
         Err "1:8: expected 'IDENT', found 'EOF'"
       else Ok src;
     gh_NewRequest := fun method url =>
       Ok {| req_Method := method; req_URL := url; req_Header := [] |};
     gh_Do := fun req =>
       if String.eqb (req_URL req) (blob_url "aaaaaaaaaa") then
         Ok (list_byte_of_string "package a")
       else if String.eqb (req_URL req) (blob_url "bbbbbbbbbb") then
         Ok (list_byte_of_string "package  b")
       else if String.eqb (req_URL req) (blob_url "cccccccccc") then
         Ok (list_byte_of_string "package c")
       else if String.eqb (req_URL req) (blob_url "eeeeeeeeee") then
         Ok (list_byte_of_string "package")
       else Err "404 Not Found";
     Git_GetRef := fun _ _ ref =>
       Ok {| ref_Ref := Some ref;
             ref_Object := Some {| obj_Type := Some "commit";
                                   obj_SHA := Some "c0c0c0c0c0" |} |};
     Git_GetTree := fun _ _ _ _ =>
       Ok {| tree_SHA := Some "7777777777"; tree_Entries := entries |};
     Repositories_CreateFork := fun _ repo =>
       Ok {| repo_Name := Some repo;
             repo_Owner := Some {| user_Login := Some "bot" |};
             repo_HTMLURL := Some ("https://github.com/bot/" +:+ repo) |};
     Git_CreateTree := fun _ _ _ _ =>
       Ok {| tree_SHA := Some "1111111111"; tree_Entries := [] |};
     Git_CreateCommit := fun _ _ c =>
       Ok {| commit_SHA := Some "2222222222";
             commit_Message := commit_Message c;
             commit_Tree := commit_Tree c;
             commit_Parents := commit_Parents c |};
     Git_CreateRef := fun _ _ ref => Ok ref;
     PullRequests_Create := fun owner repo _ =>
       Ok {| pr_HTMLURL :=
               Some ("https://github.com/" +:+ owner +:+ "/" +:+ repo +:+ "/pull/1") |} |}.

Definition goFiles : list TreeEntry := [a_go; b_go; c_go; d_go; e_go].

Definition b_patch : TreeEntry :=
  {| SHA := None; Path := Some "pkg/b.go"; Mode := Some "100644";
     Type_ := Some "blob"; Size := None; Content := Some "package b" |}.

(** The goroutines finish in the order e, a, d, c, b. *)
Definition sched : list nat := [4; 0; 2; 1; 0].

(** The same repository with every Go file fetched and already
    gofmt'ed. *)
Definition clean_world : World :=
  {| Getenv := Getenv world;
     filepath_Join := filepath_Join world;
     ReadFile := ReadFile world;
     format_Source := fun src => Ok src;
     gh_NewRequest := gh_NewRequest world;
     gh_Do := fun _ => Ok (list_byte_of_string "package p");
     Git_GetRef := Git_GetRef world;
     Git_GetTree := Git_GetTree world;
     Repositories_CreateFork := Repositories_CreateFork world;
     Git_CreateTree := Git_CreateTree world;
     Git_CreateCommit := Git_CreateCommit world;
     Git_CreateRef := Git_CreateRef world;
     PullRequests_Create := PullRequests_Create world |}.

End Demo.

(** ** The order of the goroutines, made explicit *)

(** The goroutines one after the other, in a given order. *)
Fixpoint run_workers (w : World) (owner repo : string) (order : list TreeEntry)
    (changes : list TreeEntry) : M (list TreeEntry) :=
  match order with
  | [] => ret changes
  | te :: rest =>
      changes' <- worker w owner repo te changes ;;;
      run_workers w owner repo rest changes'
  end.

(** The candidates the first [n] choices of a schedule pick, in order, and
    those left. *)
Fixpoint pick_order (n : nat) (sched : list nat) (pending : list TreeEntry)
    : list TreeEntry * list TreeEntry :=
  match n with
  | O => ([], pending)
  | S n' =>
      let i := hd 0 sched mod length pending in
      match pending !! i with
      | None => pick_order n' (tl sched) pending
      | Some te =>
          let picked := pick_order n' (tl sched) (delete i pending) in
          (te :: fst picked, snd picked)
      end
  end.

(** An entry of the changeset as [add] builds them from the candidates
    [goFiles]: a content, no hash, and the path, mode and type of one of
    them. *)
Definition patched_from (goFiles : list TreeEntry) (e : TreeEntry) : Prop :=
  is_Some (Content e)
  /\ SHA e = None
  /\ exists c, c ∈ goFiles /\ Path e = Path c /\ Mode e = Mode c /\ Type_ e = Type_ c.

Definition pool_inv (goFiles : list TreeEntry) (st : Pool) : Prop :=
  Forall (patched_from goFiles) (changes st)
  /\ pending st ⊆ goFiles
  /\ length (changes st) + length (pending st) <= length goFiles.

(** ** Kinds of events *)

(** The requests that create something on GitHub. *)
Definition is_remote_write (e : event) : bool :=
  match e with
  | ECreateFork _ _ | ECreateTree _ _ _ _ | ECreateCommit _ _ _
  | ECreateRef _ _ _ | ECreatePullRequest _ _ _ => true
  | _ => false
  end.

(** The requests sent to GitHub. *)
Definition is_network (e : event) : bool :=
  match e with
  | EGetRef _ _ _ | EGetTree _ _ _ _ | EDo _ => true
  | _ => is_remote_write e
  end.

(** Log lines, the read of the token file, and the requests that only read
    from GitHub. *)
Definition is_read (e : event) : bool :=
  match e with
  | ELog _ | EReadFile _ | EGetRef _ _ _ | EGetTree _ _ _ _ | EDo _ => true
  | _ => false
  end.


(** A run that emits only events of kind [P]. *)
Definition emits_only {A} (P : event -> bool) (m : M A) : Prop :=
  Forall (fun e => P e = true) (trace m).

(** Candidate [te] is already gofmt'ed: its blob is fetched and
    [format.Source] gives the same bytes back. *)
Definition already_canonical (w : World) (owner repo : string) (te : TreeEntry) : Prop :=
  exists sha input,
    SHA te = Some sha
    /\ result (rawBlob w owner repo sha) = Ret (Ok input)
    /\ format_Source w input = Ok input.

(** ** The selector and a goroutine, as they are specified *)

(** The entries the selector is to keep: a blob, whose path ends with
    [.go], of unknown size or of at most 1 MiB. *)
Definition is_candidate (te : TreeEntry) : bool :=
  match Type_ te, Path te with
  | Some ty, Some path =>
      String.eqb ty "blob" && HasSuffix path ".go"
      && match Size te with
         | None => true
         | Some size => (size <=? 1048576)%Z
         end
  | _, _ => false
  end.

(** An entry as GitHub lists it: it has a type and a path. *)
Definition listed (te : TreeEntry) : Prop :=
  is_Some (Type_ te) /\ is_Some (Path te).

(** The entry [add] builds from candidate [te] and the formatted bytes. *)
Definition patched (te : TreeEntry) (out : bytes) : TreeEntry :=
  {| SHA := None; Path := Path te; Mode := Mode te; Type_ := Type_ te;
     Size := None; Content := Some (string_of_list_byte out) |}.

(** Candidate [te] is changed by gofmt into [out]: its blob is fetched, it
    is formatted, and the formatted bytes are not the fetched ones. *)
Definition needs_gofmt (w : World) (owner repo : string) (te : TreeEntry)
    (out : bytes) : Prop :=
  exists sha input,
    SHA te = Some sha
    /\ result (rawBlob w owner repo sha) = Ret (Ok input)
    /\ format_Source w input = Ok out
    /\ input <> out.

(** What the goroutine of [te] is to add to the changeset, if anything. *)
Definition patch_of (w : World) (owner repo : string) (te : TreeEntry)
    : option TreeEntry :=
  match SHA te with
  | None => None
  | Some sha =>
      match result (rawBlob w owner repo sha) with
      | Ret (Ok input) =>
          match format_Source w input with
          | Ok out => if bool_decide (input = out) then None else Some (patched te out)
          | Err _ => None
          end
      | _ => None
      end
  end.

(** A candidate whose path and hash are present, as for every listed blob. *)
Definition fetchable (te : TreeEntry) : Prop :=
  is_Some (Path te) /\ is_Some (SHA te).

(** ** More of what the code is to do, for the properties beyond the claims *)

(** An entry the loop of lines 75-84 gets through: its type is there, and
    so is its path when it is a blob. *)
Definition derefable (te : TreeEntry) : bool :=
  match Type_ te with
  | None => false
  | Some ty =>
      if String.eqb ty "blob" then
        match Path te with Some _ => true | None => false end
      else true
  end.

(** A Go blob above the size limit. *)
Definition too_big (te : TreeEntry) : bool :=
  match Type_ te, Path te, Size te with
  | Some ty, Some path, Some size =>
      String.eqb ty "blob" && HasSuffix path ".go" && (size >? 1048576)%Z
  | _, _, _ => false
  end.

(** The warning of line 79 for entry [te]. *)
Definition warning (te : TreeEntry) : event :=
  ELog ("Warning: Skipping " +:+ default EmptyString (Path te)
        +:+ " because it is too big").

(** The request a run sent, when the event is one. *)
Definition sent_request (e : event) : option Request :=
  match e with EDo req => Some req | _ => None end.

(** The request [rawBlob] is to send for candidate [te]. *)
Definition blob_request (w : World) (owner repo : string) (te : TreeEntry)
    : option Request :=
  match SHA te with
  | None => None
  | Some sha =>
      match gh_NewRequest w "GET"
              ("repos/" +:+ owner +:+ "/" +:+ repo +:+ "/git/blobs/" +:+ sha) with
      | Ok req => Some (Header_Set "Accept" "application/vnd.github.v3.raw" req)
      | Err _ => None
      end
  end.

(** The five steps of lines 133-187. *)
Inductive step := Forked | TreeBuilt | Committed | Branched | PRCreated.

Definition step_of (e : event) : option step :=
  match e with
  | ECreateFork _ _ => Some Forked
  | ECreateTree _ _ _ _ => Some TreeBuilt
  | ECreateCommit _ _ _ => Some Committed
  | ECreateRef _ _ _ => Some Branched
  | ECreatePullRequest _ _ _ => Some PRCreated
  | _ => None
  end.

Definition is_log (e : event) : bool :=
  match e with ELog _ => true | _ => false end.


Definition is_blob_request (e : event) : bool :=
  match e with EDo _ => true | _ => false end.

(** The path of the token file (line 44). *)
Definition tokenFile (w : World) : string :=
  filepath_Join w (Getenv w "HOME") ".prbot-token".

(** ** The sample repository, with faults *)
Module Faults.

(** The token file is missing. *)
Definition no_token : World :=
  {| Getenv := Getenv Demo.world;
     filepath_Join := filepath_Join Demo.world;
     ReadFile := fun _ => Err "open /home/bot/.prbot-token: no such file or directory";
     format_Source := format_Source Demo.world;
     gh_NewRequest := gh_NewRequest Demo.world;
     gh_Do := gh_Do Demo.world;
     Git_GetRef := Git_GetRef Demo.world;
     Git_GetTree := Git_GetTree Demo.world;
     Repositories_CreateFork := Repositories_CreateFork Demo.world;
     Git_CreateTree := Git_CreateTree Demo.world;
     Git_CreateCommit := Git_CreateCommit Demo.world;
     Git_CreateRef := Git_CreateRef Demo.world;
     PullRequests_Create := PullRequests_Create Demo.world |}.

Definition tag_object : GitObject :=
  {| obj_Type := Some "tag"; obj_SHA := Some "abcdef0123" |}.

Definition tag_ref : Reference :=
  {| ref_Ref := Some "refs/heads/master"; ref_Object := Some tag_object |}.

(** [refs/heads/master] points at a tag. *)
Definition master_is_a_tag : World :=
  {| Getenv := Getenv Demo.world;
     filepath_Join := filepath_Join Demo.world;
     ReadFile := ReadFile Demo.world;
     format_Source := format_Source Demo.world;
     gh_NewRequest := gh_NewRequest Demo.world;
     gh_Do := gh_Do Demo.world;
     Git_GetRef := fun _ _ _ => Ok tag_ref;
     Git_GetTree := Git_GetTree Demo.world;
     Repositories_CreateFork := Repositories_CreateFork Demo.world;
     Git_CreateTree := Git_CreateTree Demo.world;
     Git_CreateCommit := Git_CreateCommit Demo.world;
     Git_CreateRef := Git_CreateRef Demo.world;
     PullRequests_Create := PullRequests_Create Demo.world |}.

(** The commit cannot be created in the fork. *)
Definition no_commit : World :=
  {| Getenv := Getenv Demo.world;
     filepath_Join := filepath_Join Demo.world;
     ReadFile := ReadFile Demo.world;
     format_Source := format_Source Demo.world;
     gh_NewRequest := gh_NewRequest Demo.world;
     gh_Do := gh_Do Demo.world;
     Git_GetRef := Git_GetRef Demo.world;
     Git_GetTree := Git_GetTree Demo.world;
     Repositories_CreateFork := Repositories_CreateFork Demo.world;
     Git_CreateTree := Git_CreateTree Demo.world;
     Git_CreateCommit := fun _ _ _ => Err "422 Unprocessable Entity";
     Git_CreateRef := Git_CreateRef Demo.world;
     PullRequests_Create := PullRequests_Create Demo.world |}.

End Faults.

(** The error GitHub answered to a request that creates something, if it
    answered one. *)
Definition answer_error (w : World) (e : event) : option error :=
  match e with
  | ECreateFork o r =>
      match Repositories_CreateFork w o r with Err err => Some err | Ok _ => None end
  | ECreateTree o r baseTree entries =>
      match Git_CreateTree w o r baseTree entries with Err err => Some err | Ok _ => None end
  | ECreateCommit o r commit =>
      match Git_CreateCommit w o r commit with Err err => Some err | Ok _ => None end
  | ECreateRef o r ref =>
      match Git_CreateRef w o r ref with Err err => Some err | Ok _ => None end
  | ECreatePullRequest o r pull =>
      match PullRequests_Create w o r pull with Err err => Some err | Ok _ => None end
  | _ => None
  end.

(** An entry GitHub lists with its type, its path and its hash. *)
Definition complete_entry (te : TreeEntry) : Prop :=
  is_Some (Type_ te) /\ is_Some (Path te) /\ is_Some (SHA te).

(** A world whose answers, when they are no errors, carry the fields the
    program reads. *)
Record complete_answers (w : World) : Prop := {
  ref_complete :
    forall o r name ref, Git_GetRef w o r name = Ok ref ->
      exists obj, ref_Object ref = Some obj
                  /\ is_Some (obj_Type obj) /\ is_Some (obj_SHA obj);
  tree_complete :
    forall o r c recursive tree, Git_GetTree w o r c recursive = Ok tree ->
      is_Some (tree_SHA tree) /\ Forall complete_entry (tree_Entries tree);
  fork_complete :
    forall o r fork, Repositories_CreateFork w o r = Ok fork ->
      is_Some (repo_HTMLURL fork) /\ is_Some (repo_Name fork)
      /\ exists u, repo_Owner fork = Some u /\ is_Some (user_Login u);
  new_tree_complete :
    forall o r b es t, Git_CreateTree w o r b es = Ok t -> is_Some (tree_SHA t);
  commit_complete :
    forall o r c comm, Git_CreateCommit w o r c = Ok comm -> is_Some (commit_SHA comm);
  pull_complete :
    forall o r p pr, PullRequests_Create w o r p = Ok pr -> is_Some (pr_HTMLURL pr)
}.

(** * Properties *)

(** ** The monad *)

Lemma bind_unfold {A B} (m : M A) (k : A -> M B) :
  bind m k =
  match result m with
  | Ret a => (trace m ++ trace (k a), result (k a))
  | Halt h => (trace m, Halt h)
  end.
Proof.
  unfold bind. destruct m as [t [a | h]]; simpl; [| reflexivity].
  destruct (k a); reflexivity.
Qed.

Lemma result_bind {A B} (m : M A) (k : A -> M B) :
  result (bind m k) =
  match result m with Ret a => result (k a) | Halt h => Halt h end.
Proof. rewrite bind_unfold. destruct (result m); reflexivity. Qed.

Lemma trace_bind {A B} (m : M A) (k : A -> M B) :
  trace (bind m k) =
  trace m ++ match result m with Ret a => trace (k a) | Halt _ => [] end.
Proof.
  rewrite bind_unfold. destruct (result m); simpl; [reflexivity |].
  symmetry; apply app_nil_r.
Qed.

Lemma bind_ret_l {A B} (a : A) (k : A -> M B) : bind (ret a) k = k a.
Proof. unfold bind, ret. destruct (k a); reflexivity. Qed.

Lemma bind_emit {B} (e : event) (k : unit -> M B) :
  bind (emit e) k = (e :: trace (k tt), result (k tt)).
Proof. unfold bind, emit. destruct (k tt); reflexivity. Qed.

Lemma bind_deref_Some {A B} (a : A) (k : A -> M B) : bind (deref (Some a)) k = k a.
Proof. apply bind_ret_l. Qed.

Lemma result_pair {A} (t : list event) (r : outcome A) : result (t, r) = r.
Proof. reflexivity. Qed.

Lemma trace_pair {A} (t : list event) (r : outcome A) : trace (t, r) = t.
Proof. reflexivity. Qed.

(** ** Strings *)

Lemma append_nil (s : string) : EmptyString +:+ s = s.
Proof. reflexivity. Qed.

Lemma append_cons (a : ascii) (p s : string) : String a p +:+ s = String a (p +:+ s).
Proof. reflexivity. Qed.

Lemma string_drop_app (p s : string) : string_drop (String.length p) (p +:+ s) = s.
Proof.
  induction p as [| a p IH]; [reflexivity |].
  rewrite append_cons; simpl; exact IH.
Qed.

Lemma string_take_drop (n : nat) (s : string) : string_take n s +:+ string_drop n s = s.
Proof.
  revert s; induction n as [| n IH]; intros [| a s]; simpl; try reflexivity.
  rewrite append_cons, IH; reflexivity.
Qed.

Lemma string_length_app (p s : string) :
  String.length (p +:+ s) = String.length p + String.length s.
Proof.
  induction p as [| a p IH]; [reflexivity |].
  rewrite append_cons; simpl; rewrite IH; reflexivity.
Qed.

(** [strings.HasSuffix] is true exactly on the strings that end with the
    suffix. *)
Lemma HasSuffix_spec (s suffix : string) :
  HasSuffix s suffix = true <-> exists p, s = p +:+ suffix.
Proof.
  unfold HasSuffix. rewrite andb_true_iff, Nat.leb_le, String.eqb_eq. split.
  - intros [_ Hd]. exists (string_take (String.length s - String.length suffix) s).
    rewrite <- (string_take_drop (String.length s - String.length suffix) s) at 1.
    f_equal; exact Hd.
  - intros [p ->]. rewrite string_length_app. split; [lia |].
    replace (String.length p + String.length suffix - String.length suffix)
      with (String.length p) by lia.
    apply string_drop_app.
Qed.

Lemma Split_length (s : string) (sep : ascii) :
  length (Split s sep) = S (Count s sep).
Proof.
  induction s as [| a s IH]; simpl; [reflexivity |].
  destruct (Ascii.eqb a sep); simpl; [congruence |].
  destruct (Split s sep); simpl in *; congruence.
Qed.

Lemma Split_no_sep (s : string) (sep : ascii) :
  Count s sep = 0 -> Split s sep = [s].
Proof.
  induction s as [| a s IH]; simpl; [reflexivity |].
  destruct (Ascii.eqb a sep); simpl; [discriminate |].
  intros H; rewrite (IH H); reflexivity.
Qed.

Lemma Split_one_sep (o r : string) (sep : ascii) :
  Count o sep = 0 -> Count r sep = 0 ->
  Split (o +:+ String sep r) sep = [o; r].
Proof.
  intros Ho Hr. induction o as [| a o IH].
  - rewrite append_nil; simpl.
    rewrite Ascii.eqb_refl, (Split_no_sep _ _ Hr). reflexivity.
  - rewrite append_cons; simpl. simpl in Ho.
    destruct (Ascii.eqb a sep); [discriminate |].
    rewrite (IH Ho). reflexivity.
Qed.

(** ** The candidates (lines 74-85) *)

Lemma is_candidate_spec (te : TreeEntry) :
  is_candidate te = true <->
  Type_ te = Some "blob"
  /\ (exists prefix, Path te = Some (prefix +:+ ".go"))
  /\ (Size te = None \/ exists size, Size te = Some size /\ (size <= 1048576)%Z).
Proof.
  unfold is_candidate. split.
  - destruct (Type_ te) as [ty |]; [| discriminate].
    destruct (Path te) as [path |]; [| discriminate].
    rewrite !andb_true_iff, String.eqb_eq, HasSuffix_spec.
    intros [[-> [p ->]] Hs]. split; [reflexivity |]. split; [eauto |].
    destruct (Size te) as [size |]; [right | left; reflexivity].
    exists size. split; [reflexivity | lia].
  - intros (-> & [p ->] & Hs).
    rewrite !andb_true_iff, String.eqb_eq, HasSuffix_spec.
    split; [split; [reflexivity | eauto] |].
    destruct Hs as [-> | (size & -> & Hle)]; [reflexivity | lia].
Qed.

Lemma select_loop_result (entries goFiles : list TreeEntry) :
  Forall listed entries ->
  result (select_loop entries goFiles) = Ret (goFiles ++ filter is_candidate entries).
Proof.
  intros Hl; revert goFiles.
  induction Hl as [| te rest [[ty Hty] [path Hpath]] _ IH]; intros goFiles; simpl.
  - rewrite app_nil_r; reflexivity.
  - assert (Hf : filter is_candidate (te :: rest)
                 = if is_candidate te then te :: filter is_candidate rest
                   else filter is_candidate rest).
    { rewrite filter_cons. destruct (is_candidate te); reflexivity. }
    rewrite Hf; clear Hf. unfold is_candidate at 1.
    rewrite Hty, Hpath, !bind_deref_Some.
    destruct (String.eqb ty "blob"); [| apply IH].
    destruct (HasSuffix path ".go"); [| apply IH].
    destruct (Size te) as [size |]; simpl andb.
    + change (Z.shiftl 1 20) with 1048576%Z.
      destruct (Z.gtb_spec size 1048576) as [Hgt | Hle]; cbv iota.
      * rewrite result_bind; simpl result. rewrite IH.
        destruct (Z.leb_spec size 1048576); [lia | reflexivity].
      * rewrite IH.
        destruct (Z.leb_spec size 1048576); [| lia].
        rewrite <- app_assoc; reflexivity.
    + rewrite IH, <- app_assoc; reflexivity.
Qed.

(** C1.  On a tree listing whose entries have a type and a path, the
    selector returns exactly the entries that are blobs, whose path ends
    with [.go], and whose size is unknown or at most 1 MiB (1048576 bytes):
    the result is the listing filtered by that test, so each such entry is
    kept once, in the order of the listing, and nothing else is. *)
Theorem select_candidates_spec (entries : list TreeEntry) :
  Forall listed entries ->
  exists goFiles,
    result (select_candidates entries) = Ret goFiles
    /\ goFiles = filter is_candidate entries
    /\ goFiles `sublist_of` entries
    /\ (forall te, te ∈ goFiles <->
          te ∈ entries
          /\ Type_ te = Some "blob"
          /\ (exists prefix, Path te = Some (prefix +:+ ".go"))
          /\ (Size te = None
              \/ exists size, Size te = Some size /\ (size <= Z.shiftl 1 20)%Z)).
Proof.
  intros Hl. exists (filter is_candidate entries).
  split; [apply (select_loop_result entries [] Hl) |].
  split; [reflexivity |]. split; [apply sublist_filter |].
  intros te. rewrite list_elem_of_filter, Is_true_true, is_candidate_spec.
  change (Z.shiftl 1 20) with 1048576%Z. tauto.
Qed.

Lemma select_candidates_spec_witness :
  Forall listed Demo.entries
  /\ exists goFiles,
       result (select_candidates Demo.entries) = Ret goFiles
       /\ goFiles = Demo.goFiles.
Proof.
  assert (Hl : Forall listed Demo.entries).
  { repeat constructor; simpl; eauto. }
  split; [exact Hl |].
  destruct (select_candidates_spec Demo.entries Hl) as (goFiles & Hr & Hf & _).
  exists goFiles. split; [exact Hr |]. rewrite Hf. vm_compute. reflexivity.
Defined.

(** ** One goroutine (lines 92-125) *)

Lemma rawBlob_returns (w : World) (owner repo sha : string) :
  exists fetched, result (rawBlob w owner repo sha) = Ret fetched.
Proof.
  unfold rawBlob. destruct (gh_NewRequest _ _ _) as [req | e]; [| eexists; reflexivity].
  rewrite bind_emit. destruct (gh_Do _ _); eexists; reflexivity.
Qed.

Lemma patch_of_Some (w : World) (owner repo : string) (te e : TreeEntry) :
  patch_of w owner repo te = Some e <->
  exists out, needs_gofmt w owner repo te out /\ e = patched te out.
Proof.
  unfold patch_of, needs_gofmt. split.
  - destruct (SHA te) as [sha |]; [| discriminate].
    destruct (result (rawBlob w owner repo sha)) as [[input | ?] | ?] eqn:Hr;
      try discriminate.
    destruct (format_Source w input) as [out | ?] eqn:Hfm; [| discriminate].
    case_bool_decide; [discriminate |]. intros [= <-]. eauto 10.
  - intros (out & (sha & input & -> & -> & -> & Hne) & ->).
    rewrite bool_decide_eq_false_2 by exact Hne. reflexivity.
Qed.

(** The goroutine of a fetchable candidate ends, and [changes] has grown by
    its patch, if it has one. *)
Lemma worker_result (w : World) (owner repo : string) (te : TreeEntry)
    (changes : list TreeEntry) :
  fetchable te ->
  result (worker w owner repo te changes)
  = Ret (changes ++ option_list (patch_of w owner repo te)).
Proof.
  intros [[path Hpath] [sha Hsha]]. unfold worker, patch_of.
  rewrite Hpath, Hsha, !bind_deref_Some, result_bind.
  destruct (rawBlob_returns w owner repo sha) as [fetched ->].
  destruct fetched as [input | e]; simpl; [| rewrite app_nil_r; reflexivity].
  destruct (format_Source w input) as [out | e]; simpl;
    [| rewrite app_nil_r; reflexivity].
  case_bool_decide; simpl; [rewrite app_nil_r; reflexivity | reflexivity].
Qed.

(** When the goroutine ends at all, that is what it has done. *)
Lemma worker_Ret (w : World) (owner repo : string) (te : TreeEntry)
    (changes changes' : list TreeEntry) :
  result (worker w owner repo te changes) = Ret changes' ->
  changes' = changes ++ option_list (patch_of w owner repo te).
Proof.
  intros Hr. assert (Hf : fetchable te).
  { unfold worker in Hr. unfold fetchable.
    destruct (Path te) as [path |]; [| discriminate].
    rewrite bind_deref_Some in Hr.
    destruct (SHA te) as [sha |]; [| discriminate]. eauto. }
  rewrite (worker_result _ _ _ _ _ Hf) in Hr. congruence.
Qed.

(** What the goroutine prints and sends does not depend on [changes]. *)
Lemma worker_trace (w : World) (owner repo : string) (te : TreeEntry)
    (changes : list TreeEntry) :
  trace (worker w owner repo te changes) = trace (worker w owner repo te []).
Proof.
  unfold worker. destruct (Path te) as [path |]; [| reflexivity].
  destruct (SHA te) as [sha |]; [| reflexivity].
  rewrite !bind_deref_Some, !trace_bind. f_equal.
  destruct (result (rawBlob w owner repo sha)) as [[input | e] |]; try reflexivity.
  destruct (format_Source w input) as [out | e]; [| reflexivity].
  case_bool_decide; reflexivity.
Qed.

(** C2.  The goroutine of a candidate (with its path and hash) ends, and
    it has appended an entry to the changeset exactly when the blob was
    fetched, [format.Source] succeeded and its output differs from the
    fetched bytes; the entry then has the path, mode (and type) of the
    candidate, the formatted bytes as content, and no hash.  In every other
    case, in particular when the formatted bytes equal the fetched ones, the
    changeset is as it was. *)
Theorem worker_appends_iff_changed (w : World) (owner repo : string)
    (te : TreeEntry) (changes : list TreeEntry) :
  fetchable te ->
  exists changes',
    result (worker w owner repo te changes) = Ret changes'
    /\ (forall e, changes' = changes ++ [e] <->
          exists sha input out,
            SHA te = Some sha
            /\ result (rawBlob w owner repo sha) = Ret (Ok input)
            /\ format_Source w input = Ok out
            /\ input <> out
            /\ e = {| SHA := None; Path := Path te; Mode := Mode te;
                      Type_ := Type_ te; Size := None;
                      Content := Some (string_of_list_byte out) |})
    /\ ((forall e, changes' <> changes ++ [e]) -> changes' = changes)
    /\ (forall sha input,
          SHA te = Some sha ->
          result (rawBlob w owner repo sha) = Ret (Ok input) ->
          format_Source w input = Ok input ->
          changes' = changes).
Proof.
  intros Hf. exists (changes ++ option_list (patch_of w owner repo te)).
  split; [apply worker_result, Hf |].
  destruct (patch_of w owner repo te) as [e0 |] eqn:Hp; simpl.
  - apply patch_of_Some in Hp as (out & (sha & input & Hs & Hr & Hfm & Hne) & ->).
    split; [| split].
    + intros e. split.
      * intros He%app_inv_head. injection He as <-. eauto 10.
      * intros (sha' & input' & out' & Hs' & Hr' & Hfm' & _ & ->).
        rewrite Hs in Hs'; injection Hs' as <-.
        rewrite Hr in Hr'; injection Hr' as <-.
        rewrite Hfm in Hfm'; injection Hfm' as <-. reflexivity.
    + intros Hno. destruct (Hno _ eq_refl).
    + intros sha' input' Hs' Hr' Hfm'.
      rewrite Hs in Hs'; injection Hs' as <-.
      rewrite Hr in Hr'; injection Hr' as <-. congruence.
  - rewrite app_nil_r. split; [| split]; [| reflexivity | reflexivity].
    intros e. split.
    + intros He. apply (f_equal length) in He.
      rewrite length_app in He; simpl in He; lia.
    + intros (sha & input & out & Hs & Hr & Hfm & Hne & ->).
      assert (Hsome : patch_of w owner repo te = Some (patched te out)).
      { apply patch_of_Some. exists out. split; [| reflexivity].
        exists sha, input. auto. }
      congruence.
Qed.

Lemma worker_appends_iff_changed_witness :
  fetchable Demo.b_go
  /\ exists changes',
       result (worker Demo.world "u" "r" Demo.b_go []) = Ret changes'
       /\ changes' = [Demo.b_patch].
Proof.
  assert (Hf : fetchable Demo.b_go) by (split; simpl; eauto).
  split; [exact Hf |].
  destruct (worker_appends_iff_changed Demo.world "u" "r" Demo.b_go [] Hf)
    as (changes' & Hr & _).
  exists changes'. split; [exact Hr |].
  vm_compute in Hr. injection Hr as <-. reflexivity.
Defined.

(** ** The goroutines together (lines 102-127) *)

Lemma bind_assoc {A B C} (m : M A) (f : A -> M B) (g : B -> M C) :
  bind (bind m f) g = bind m (fun a => bind (f a) g).
Proof.
  unfold bind. destruct m as [t [a | h]]; [| reflexivity].
  destruct (f a) as [t' [b | h']]; [| reflexivity].
  destruct (g b) as [t'' r]. rewrite app_assoc. reflexivity.
Qed.

Lemma bind_ext {A B} (m : M A) (k k' : A -> M B) :
  (forall a, k a = k' a) -> bind m k = bind m k'.
Proof.
  intros Hk. unfold bind. destruct m as [t [a | h]]; [| reflexivity].
  rewrite Hk. reflexivity.
Qed.

(** Whatever the schedule, the goroutines run one after the other in some
    order: the one [pick_order] gives. *)
Lemma pool_steps_run_workers (w : World) (owner repo : string) (n : nat) :
  forall (sched : list nat) (st : Pool),
    pool_steps w owner repo n sched st
    = bind (run_workers w owner repo (fst (pick_order n sched (pending st))) (changes st))
        (fun cs => ret {| pending := snd (pick_order n sched (pending st));
                          changes := cs |}).
Proof.
  induction n as [| n IH]; intros sched [pend chg]; simpl.
  - rewrite bind_ret_l. reflexivity.
  - unfold pool_step; simpl.
    destruct (pend !! (hd 0 sched mod length pend)) as [te |] eqn:Hi; simpl.
    + rewrite !bind_assoc. apply bind_ext. intros cs.
      rewrite bind_ret_l, IH. reflexivity.
    + rewrite bind_ret_l, IH. reflexivity.
Qed.

Lemma pick_order_Permutation (n : nat) :
  forall (sched : list nat) (pend : list TreeEntry),
    fst (pick_order n sched pend) ++ snd (pick_order n sched pend) ≡ₚ pend.
Proof.
  induction n as [| n IH]; intros sched pend; simpl; [reflexivity |].
  destruct (pend !! (hd 0 sched mod length pend)) as [te |] eqn:Hi; simpl.
  - rewrite IH. symmetry. apply delete_Permutation, Hi.
  - apply IH.
Qed.

Lemma pick_order_all (n : nat) :
  forall (sched : list nat) (pend : list TreeEntry),
    length pend <= n -> snd (pick_order n sched pend) = [].
Proof.
  induction n as [| n IH]; intros sched pend Hn; simpl.
  - destruct pend; [reflexivity | simpl in Hn; lia].
  - destruct (pend !! (hd 0 sched mod length pend)) as [te |] eqn:Hi; simpl.
    + apply IH. rewrite length_delete by (rewrite Hi; eauto).
      apply lookup_lt_Some in Hi. lia.
    + apply IH. apply lookup_ge_None in Hi.
      destruct pend as [| x pend]; [simpl; lia |].
      pose proof (Nat.mod_upper_bound (hd 0 sched) (length (x :: pend))) as Hm.
      simpl in *; lia.
Qed.

Lemma pick_order_complete (sched : list nat) (goFiles : list TreeEntry) :
  fst (pick_order (length goFiles) sched goFiles) ≡ₚ goFiles.
Proof.
  pose proof (pick_order_Permutation (length goFiles) sched goFiles) as Hp.
  rewrite pick_order_all, app_nil_r in Hp by lia. exact Hp.
Qed.

Lemma run_workers_fetchable (w : World) (owner repo : string)
    (order : list TreeEntry) :
  Forall fetchable order ->
  forall changes,
    run_workers w owner repo order changes
    = (concat (map (fun te => trace (worker w owner repo te [])) order),
       Ret (changes ++ omap (patch_of w owner repo) order)).
Proof.
  induction 1 as [| te order Hf _ IH]; intros chg; simpl.
  - rewrite app_nil_r. reflexivity.
  - rewrite bind_unfold, (worker_result _ _ _ _ _ Hf), (worker_trace _ _ _ _ chg), IH.
    unfold trace, result; simpl. f_equal. f_equal.
    rewrite <- app_assoc. f_equal.
    destruct (patch_of w owner repo te); reflexivity.
Qed.

Lemma run_pool_fetchable (w : World) (owner repo : string) (sched : list nat)
    (goFiles : list TreeEntry) :
  Forall fetchable goFiles ->
  run_pool w owner repo sched goFiles
  = (concat (map (fun te => trace (worker w owner repo te []))
               (fst (pick_order (length goFiles) sched goFiles))),
     Ret (omap (patch_of w owner repo)
            (fst (pick_order (length goFiles) sched goFiles)))).
Proof.
  intros Hf. unfold run_pool. rewrite pool_steps_run_workers; simpl.
  rewrite run_workers_fetchable.
  - unfold bind, ret; simpl. rewrite !app_nil_r. reflexivity.
  - rewrite (pick_order_complete sched goFiles). exact Hf.
Qed.





(** ** The changeset while the goroutines run *)

Lemma pool_step_inv (w : World) (owner repo : string) (goFiles : list TreeEntry)
    (choice : nat) (st st' : Pool) :
  pool_inv goFiles st ->
  result (pool_step w owner repo choice st) = Ret st' ->
  pool_inv goFiles st'.
Proof.
  intros (Hall & Hsub & Hlen). unfold pool_step.
  destruct (pending st !! (choice mod length (pending st))) as [te |] eqn:Hi.
  - rewrite result_bind.
    destruct (result (worker w owner repo te (changes st))) as [chg |] eqn:Hw;
      [| discriminate].
    intros [= <-]. apply worker_Ret in Hw. subst chg.
    assert (Hte : te ∈ goFiles) by (eapply Hsub, list_elem_of_lookup_2, Hi).
    unfold pool_inv; simpl. split; [| split].
    + apply Forall_app. split; [exact Hall |].
      destruct (patch_of w owner repo te) as [e |] eqn:Hp; simpl; [| constructor].
      apply patch_of_Some in Hp as (out & _ & ->).
      constructor; [| constructor].
      split; [simpl; eauto |]. split; [reflexivity |]. exists te. auto.
    + intros x Hx. apply Hsub.
      eapply sublist_subseteq; [apply sublist_delete | exact Hx].
    + rewrite length_app, length_delete by (rewrite Hi; eauto).
      apply lookup_lt_Some in Hi.
      destruct (patch_of w owner repo te); simpl; lia.
  - intros [= <-]. split; [| split]; assumption.
Qed.

Lemma pool_steps_inv (w : World) (owner repo : string) (goFiles : list TreeEntry)
    (n : nat) :
  forall (sched : list nat) (st st' : Pool),
    pool_inv goFiles st ->
    result (pool_steps w owner repo n sched st) = Ret st' ->
    pool_inv goFiles st'.
Proof.
  induction n as [| n IH]; intros sched st st' Hinv; simpl.
  - intros [= <-]. exact Hinv.
  - rewrite result_bind.
    destruct (result (pool_step w owner repo (hd 0 sched) st)) as [st1 |] eqn:H1;
      [| discriminate].
    apply IH. eapply pool_step_inv; eauto.
Qed.

Lemma pool_inv_init (goFiles : list TreeEntry) :
  pool_inv goFiles {| pending := goFiles; changes := [] |}.
Proof.
  unfold pool_inv; simpl. split; [constructor |]. split; [| lia].
  intros x Hx; exact Hx.
Qed.

(** C9.  After any number of steps of the goroutines, under any schedule,
    every entry of the changeset has a content and no hash, and the path,
    mode and type of one of the candidates; and the changeset has at most
    as many entries as there are candidates. *)
Theorem changeset_invariant (w : World) (owner repo : string)
    (goFiles : list TreeEntry) (n : nat) (sched : list nat) (st : Pool) :
  result (pool_steps w owner repo n sched {| pending := goFiles; changes := [] |})
  = Ret st ->
  Forall (fun e =>
            is_Some (Content e)
            /\ SHA e = None
            /\ exists c, c ∈ goFiles
                         /\ Path e = Path c /\ Mode e = Mode c /\ Type_ e = Type_ c)
         (changes st)
  /\ length (changes st) <= length goFiles.
Proof.
  intros Hr.
  destruct (pool_steps_inv w owner repo goFiles n sched _ st (pool_inv_init goFiles) Hr)
    as (Hall & _ & Hlen).
  split; [exact Hall | lia].
Qed.

Lemma changeset_invariant_witness :
  exists st,
    result (pool_steps Demo.world "u" "r" 5 Demo.sched
              {| pending := Demo.goFiles; changes := [] |}) = Ret st
    /\ changes st = [Demo.b_patch]
    /\ Forall (fun e =>
                 is_Some (Content e)
                 /\ SHA e = None
                 /\ exists c, c ∈ Demo.goFiles
                              /\ Path e = Path c /\ Mode e = Mode c
                              /\ Type_ e = Type_ c)
              (changes st)
    /\ length (changes st) <= length Demo.goFiles.
Proof.
  eexists. split; [vm_compute; reflexivity |]. split; [reflexivity |].
  apply (changeset_invariant Demo.world "u" "r" Demo.goFiles 5 Demo.sched).
  vm_compute; reflexivity.
Defined.

(** ** What a run emits, and what a returning run has done *)

Lemma result_bind_Ret {A B} (m : M A) (k : A -> M B) (b : B) :
  result (bind m k) = Ret b ->
  exists a, result m = Ret a /\ result (k a) = Ret b.
Proof.
  rewrite result_bind. destruct (result m) as [a |]; [eauto | discriminate].
Qed.

Lemma result_call_Ret {A} (e : event) (r : res A) (what : string) (a : A) :
  result (call e r what) = Ret a -> r = Ok a.
Proof.
  unfold call. rewrite bind_emit. destruct r; simpl; congruence.
Qed.

Lemma result_deref_Ret {A} (p : option A) (a : A) :
  result (deref p) = Ret a -> p = Some a.
Proof. destruct p; simpl; congruence. Qed.

Lemma call_Ok {A B} (e : event) (a : A) (what : string) (k : A -> M B) :
  bind (call e (Ok a) what) k = (e :: trace (k a), result (k a)).
Proof. unfold call. rewrite bind_assoc, bind_emit, bind_ret_l. reflexivity. Qed.

Lemma call_Err {A B} (e : event) (err : error) (what : string) (k : A -> M B) :
  bind (call e (Err err) what) k
  = ([e; ELog (what +:+ ": " +:+ err)], Halt (Exit 1)).
Proof. reflexivity. Qed.

Lemma bind_log_Printf {B} (text : string) (k : unit -> M B) :
  bind (log_Printf text) k = (ELog text :: trace (k tt), result (k tt)).
Proof. apply bind_emit. Qed.

Lemma trace_emit {B} (e : event) (k : unit -> M B) :
  trace (bind (emit e) k) = e :: trace (k tt).
Proof. rewrite bind_emit. reflexivity. Qed.

Lemma trace_log_Printf {B} (text : string) (k : unit -> M B) :
  trace (bind (log_Printf text) k) = ELog text :: trace (k tt).
Proof. apply trace_emit. Qed.

Lemma trace_call_Ok {A B} (e : event) (a : A) (what : string) (k : A -> M B) :
  trace (bind (call e (Ok a) what) k) = e :: trace (k a).
Proof. rewrite call_Ok. reflexivity. Qed.

Section EmitsOnly.
Context (P : event -> bool).

Lemma emits_only_ret {A} (a : A) : emits_only P (ret a).
Proof. constructor. Qed.

Lemma emits_only_halt {A} (h : halt) : emits_only P (@halt_with A h).
Proof. constructor. Qed.

Lemma emits_only_deref {A} (p : option A) : emits_only P (deref p).
Proof. destruct p; constructor. Qed.

Lemma emits_only_emit (e : event) : P e = true -> emits_only P (emit e).
Proof. intros He. repeat constructor. exact He. Qed.

Lemma emits_only_bind {A B} (m : M A) (k : A -> M B) :
  emits_only P m -> (forall a, emits_only P (k a)) -> emits_only P (bind m k).
Proof.
  unfold emits_only. intros Hm Hk. rewrite trace_bind.
  apply Forall_app. split; [exact Hm |].
  destruct (result m); [apply Hk | constructor].
Qed.

Lemma emits_only_log_Fatalf {A} (text : string) :
  P (ELog text) = true -> emits_only P (@log_Fatalf A text).
Proof. intros He. repeat constructor. exact He. Qed.

Lemma emits_only_call {A} (e : event) (r : res A) (what : string) :
  P e = true -> (forall text, P (ELog text) = true) ->
  emits_only P (call e r what).
Proof.
  intros He Hlog. destruct r; repeat constructor; auto.
Qed.
End EmitsOnly.

Lemma emits_only_impl {A} (P Q : event -> bool) (m : M A) :
  (forall e, P e = true -> Q e = true) -> emits_only P m -> emits_only Q m.
Proof.
  unfold emits_only. intros HPQ Hm.
  induction Hm; constructor; auto.
Qed.

Lemma emits_only_filter_nil {A} (P Q : event -> bool) (m : M A) :
  (forall e, P e = true -> Q e = false) ->
  emits_only P m -> filter Q (trace m) = [].
Proof.
  intros HPQ Hm. unfold emits_only in Hm.
  induction Hm as [| e l He _ IH]; [reflexivity |].
  rewrite filter_cons, decide_False; [exact IH |].
  rewrite (HPQ e He). exact id.
Qed.

Ltac emits_only_step :=
  first
    [ apply emits_only_ret
    | apply emits_only_halt
    | apply emits_only_deref
    | apply emits_only_emit; reflexivity
    | apply emits_only_log_Fatalf; reflexivity
    | apply emits_only_call; [reflexivity | reflexivity]
    | apply emits_only_bind; [| intros ?]
    | match goal with
      | |- emits_only _ (match ?x with _ => _ end) => destruct x
      end ].

Lemma select_loop_emits (entries : list TreeEntry) :
  forall goFiles, emits_only is_read (select_loop entries goFiles).
Proof.
  induction entries as [| te rest IH]; intros goFiles; simpl;
    repeat first [apply IH | emits_only_step].
Qed.

Lemma rawBlob_emits (w : World) (owner repo sha : string) :
  emits_only is_read (rawBlob w owner repo sha).
Proof. unfold rawBlob. repeat emits_only_step. Qed.

Lemma worker_emits (w : World) (owner repo : string) (te : TreeEntry)
    (changes : list TreeEntry) :
  emits_only is_read (worker w owner repo te changes).
Proof. unfold worker. repeat first [apply rawBlob_emits | emits_only_step]. Qed.

Lemma pool_steps_emits (w : World) (owner repo : string) (n : nat) :
  forall sched st, emits_only is_read (pool_steps w owner repo n sched st).
Proof.
  induction n as [| n IH]; intros sched st; simpl; [apply emits_only_ret |].
  apply emits_only_bind; [| intros; apply IH].
  unfold pool_step. repeat first [apply worker_emits | emits_only_step].
Qed.

Lemma discover_emits (w : World) (sched : list nat) (owner repo : string) :
  emits_only is_read (discover w sched owner repo).
Proof.
  unfold discover, fetch_tree, select_candidates, run_pool, log_Printf.
  repeat first [apply select_loop_emits | apply pool_steps_emits | emits_only_step].
Qed.

Lemma parse_args_Ret (args : list string) (parsed : string * string) :
  result (parse_args args) = Ret parsed -> parse_args args = ret parsed.
Proof.
  unfold parse_args.
  destruct (negb (length args =? 1)%nat); [discriminate |].
  destruct (negb (length (Split _ _) =? 2)%nat); [discriminate |].
  simpl. congruence.
Qed.

(** What [main] holds at line 128 is what the world answered. *)
Lemma discover_Ret (w : World) (sched : list nat) (owner repo : string)
    (found : Found) :
  result (discover w sched owner repo) = Ret found ->
  exists ref obj,
    Git_GetRef w owner repo ("refs/heads/" +:+ branch) = Ok ref
    /\ ref_Object ref = Some obj
    /\ obj_Type obj = Some "commit"
    /\ obj_SHA obj = Some (f_origCommit found)
    /\ Git_GetTree w owner repo (f_origCommit found) true = Ok (f_tree found)
    /\ is_Some (tree_SHA (f_tree found))
    /\ result (select_candidates (tree_Entries (f_tree found))) = Ret (f_goFiles found)
    /\ result (run_pool w owner repo sched (f_goFiles found)) = Ret (f_changes found).
Proof.
  unfold discover, fetch_tree. intros H.
  apply result_bind_Ret in H as ([origCommit tree] & Hfetch & H).
  apply result_bind_Ret in Hfetch as (tok & _ & Hfetch).
  rewrite bind_log_Printf in Hfetch. simpl in Hfetch.
  apply result_bind_Ret in Hfetch as (ref & Href%result_call_Ret & Hfetch).
  apply result_bind_Ret in Hfetch as (obj & Hobj%result_deref_Ret & Hfetch).
  apply result_bind_Ret in Hfetch as (ty & Hty%result_deref_Ret & Hfetch).
  destruct (String.eqb_spec ty "commit") as [-> | _]; [| discriminate].
  simpl in Hfetch.
  apply result_bind_Ret in Hfetch as (oc & Hoc%result_deref_Ret & Hfetch).
  rewrite bind_log_Printf in Hfetch. simpl in Hfetch.
  apply result_bind_Ret in Hfetch as (tr & Htree%result_call_Ret & Hfetch).
  apply result_bind_Ret in Hfetch as (tsha & Htsha%result_deref_Ret & Hfetch).
  rewrite bind_log_Printf in Hfetch. simpl in Hfetch.
  injection Hfetch as -> ->.
  simpl in H.
  apply result_bind_Ret in H as (goFiles & Hsel & H).
  rewrite bind_log_Printf in H. simpl in H.
  apply result_bind_Ret in H as (chg & Hpool & H).
  rewrite bind_log_Printf in H. simpl in H. injection H as <-. simpl.
  exists ref, obj. rewrite Htsha. eauto 10.
Qed.

Lemma assemble_emits (w : World) (owner repo : string) (found : Found) :
  emits_only (fun e => is_read e || is_remote_write e) (assemble w owner repo found).
Proof. unfold assemble, log_Printf. repeat emits_only_step. Qed.

Lemma run_emits (w : World) (sched : list nat) (owner repo : string) :
  emits_only (fun e => is_read e || is_remote_write e) (run w sched owner repo).
Proof.
  unfold run. apply emits_only_bind.
  - eapply emits_only_impl; [| apply discover_emits].
    intros e ->. reflexivity.
  - intros found. destruct (length (f_changes found) =? 0)%nat.
    + apply emits_only_ret.
    + apply assemble_emits.
Qed.

Lemma run_workers_Ret (w : World) (owner repo : string) (order : list TreeEntry) :
  forall changes changes',
    result (run_workers w owner repo order changes) = Ret changes' ->
    changes' = changes ++ omap (patch_of w owner repo) order.
Proof.
  induction order as [| te order IH]; intros chg chg'; simpl.
  - intros [= <-]. rewrite app_nil_r. reflexivity.
  - intros (chg1 & Hw%worker_Ret & Hrest%IH)%result_bind_Ret. subst.
    rewrite <- app_assoc. f_equal.
    destruct (patch_of w owner repo te); reflexivity.
Qed.

(** When [wg.Wait] returns, the changeset holds the patches of the changed
    candidates, in the order in which the goroutines ran. *)
Lemma run_pool_Ret (w : World) (owner repo : string) (sched : list nat)
    (goFiles changes : list TreeEntry) :
  result (run_pool w owner repo sched goFiles) = Ret changes ->
  changes = omap (patch_of w owner repo)
              (fst (pick_order (length goFiles) sched goFiles)).
Proof.
  unfold run_pool. rewrite pool_steps_run_workers; simpl.
  intros (st & (chg & Hrun%run_workers_Ret & [= <-])%result_bind_Ret
          & [= <-])%result_bind_Ret.
  exact Hrun.
Qed.

Lemma already_canonical_no_patch (w : World) (owner repo : string) (te : TreeEntry) :
  already_canonical w owner repo te -> patch_of w owner repo te = None.
Proof.
  intros (sha & input & Hs & Hr & Hfm). unfold patch_of.
  rewrite Hs, Hr, Hfm, bool_decide_eq_true_2; reflexivity.
Qed.

(** ** Arguments (lines 33-42) *)



(** C10.  An argument with one [/] and nothing before it, or nothing after
    it, is accepted: no usage text, no exit at that step, and the program
    goes on (reading the token, then resolving the branch) with the empty
    string as owner, or as repository. *)
Theorem empty_component_accepted (w : World) (sched : list nat) (o r : string) :
  Count o "/"%char = 0 -> Count r "/"%char = 0 ->
  o = EmptyString \/ r = EmptyString ->
  parse_args [o +:+ "/" +:+ r] = ret (o, r)
  /\ main w sched [o +:+ "/" +:+ r] = run w sched o r
  /\ (forall text, EStderr text ∉ trace (main w sched [o +:+ "/" +:+ r]))
  /\ (forall token,
        ReadFile w (filepath_Join w (Getenv w "HOME") ".prbot-token") = Ok token ->
        exists rest,
          trace (main w sched [o +:+ "/" +:+ r])
          = EReadFile (filepath_Join w (Getenv w "HOME") ".prbot-token")
            :: ELog ("Resolving branch master in github.com/" +:+ o +:+ "/" +:+ r +:+ " ...")
            :: EGetRef o r "refs/heads/master"
            :: rest).
Proof.
  intros Ho Hr _.
  assert (Hp : parse_args [o +:+ "/" +:+ r] = ret (o, r)).
  { assert (Hs : Split (o +:+ "/" +:+ r) "/"%char = [o; r])
      by exact (Split_one_sep o r "/"%char Ho Hr).
    unfold parse_args. simpl. rewrite Hs. reflexivity. }
  assert (Hm : main w sched [o +:+ "/" +:+ r] = run w sched o r).
  { unfold main. rewrite Hp, bind_ret_l. reflexivity. }
  split; [exact Hp |]. split; [exact Hm |]. rewrite Hm. split.
  - intros text Hin.
    pose proof (run_emits w sched o r) as He. unfold emits_only in He.
    rewrite Forall_forall in He. specialize (He _ Hin). discriminate.
  - intros token Htok. unfold run, discover, fetch_tree.
    rewrite Htok, !bind_assoc, trace_call_Ok; cbv beta.
    rewrite ?bind_assoc, trace_log_Printf; cbv beta.
    unfold call at 1. rewrite ?bind_assoc, trace_emit.
    eexists. reflexivity.
Qed.

Lemma empty_component_accepted_witness :
  main Demo.world Demo.sched ["owner/"] = run Demo.world Demo.sched "owner" EmptyString
  /\ main Demo.world Demo.sched ["/repo"] = run Demo.world Demo.sched EmptyString "repo".
Proof.
  split.
  - apply (empty_component_accepted Demo.world Demo.sched "owner" EmptyString);
      [reflexivity | reflexivity | right; reflexivity].
  - apply (empty_component_accepted Demo.world Demo.sched EmptyString "repo");
      [reflexivity | reflexivity | left; reflexivity].
Defined.

(** ** From [main] to its stages *)

Lemma main_run (w : World) (sched : list nat) (args : list string)
    (owner repo : string) :
  result (parse_args args) = Ret (owner, repo) ->
  main w sched args = run w sched owner repo.
Proof.
  intros Hp%parse_args_Ret. unfold main. rewrite Hp, bind_ret_l. reflexivity.
Qed.

Lemma run_unchanged (w : World) (sched : list nat) (owner repo : string)
    (found : Found) :
  result (discover w sched owner repo) = Ret found ->
  f_changes found = [] ->
  run w sched owner repo = (trace (discover w sched owner repo), Ret tt).
Proof.
  intros Hd Hc. unfold run. rewrite bind_unfold, Hd, Hc. simpl.
  rewrite app_nil_r. reflexivity.
Qed.

Lemma run_changed (w : World) (sched : list nat) (owner repo : string)
    (found : Found) :
  result (discover w sched owner repo) = Ret found ->
  f_changes found <> [] ->
  run w sched owner repo
  = (trace (discover w sched owner repo) ++ trace (assemble w owner repo found),
     result (assemble w owner repo found)).
Proof.
  intros Hd Hc. unfold run. rewrite bind_unfold, Hd.
  destruct (f_changes found); [congruence | reflexivity].
Qed.

Lemma parse_args_trace (args : list string) (e : event) :
  e ∈ trace (parse_args args) -> is_remote_write e = false.
Proof.
  unfold parse_args.
  destruct (negb (length args =? 1)%nat); simpl.
  - intros ->%list_elem_of_singleton. reflexivity.
  - destruct (negb (length (Split _ _) =? 2)%nat); simpl.
    + intros ->%list_elem_of_singleton. reflexivity.
    + intros []%elem_of_nil.
Qed.

(** A request that creates something is sent by lines 133-187, after the
    arguments were accepted and a non-empty changeset was found. *)
Lemma main_write_inv (w : World) (sched : list nat) (args : list string)
    (e : event) :
  e ∈ trace (main w sched args) ->
  is_remote_write e = true ->
  exists owner repo found,
    result (parse_args args) = Ret (owner, repo)
    /\ result (discover w sched owner repo) = Ret found
    /\ f_changes found <> []
    /\ e ∈ trace (assemble w owner repo found).
Proof.
  intros Hin Hw. unfold main in Hin. rewrite trace_bind in Hin.
  apply elem_of_app in Hin as [Hin | Hin].
  { apply parse_args_trace in Hin. congruence. }
  destruct (result (parse_args args)) as [[owner repo] |] eqn:Hp;
    [| apply elem_of_nil in Hin; destruct Hin].
  simpl in Hin. unfold run in Hin. rewrite trace_bind in Hin.
  apply elem_of_app in Hin as [Hin | Hin].
  { pose proof (discover_emits w sched owner repo) as He.
    unfold emits_only in He. rewrite Forall_forall in He.
    specialize (He _ Hin). destruct e; discriminate. }
  destruct (result (discover w sched owner repo)) as [found |] eqn:Hd;
    [| apply elem_of_nil in Hin; destruct Hin].
  exists owner, repo, found. split; [reflexivity |]. split; [exact Hd |].
  destruct (f_changes found) as [| c chg]; simpl in Hin.
  - apply elem_of_nil in Hin; destruct Hin.
  - split; [discriminate | exact Hin].
Qed.

(** C3.  When the goroutines are done and the changeset is empty, as it is
    when every candidate is already gofmt'ed, [main] returns (exit status
    0) right after line 128: its trace is that of lines 29-128, and holds
    no request that creates a fork, a tree, a commit, a branch or a pull
    request. *)
Theorem no_changes_no_writes (w : World) (sched : list nat) (args : list string)
    (owner repo : string) (found : Found) :
  result (parse_args args) = Ret (owner, repo) ->
  result (discover w sched owner repo) = Ret found ->
  f_changes found = []
  \/ Forall (already_canonical w owner repo) (f_goFiles found) ->
  f_changes found = []
  /\ result (main w sched args) = Ret tt
  /\ exit_status (result (main w sched args)) = 0%Z
  /\ trace (main w sched args) = trace (discover w sched owner repo)
  /\ filter is_remote_write (trace (main w sched args)) = [].
Proof.
  intros Hp Hd Hc.
  assert (Hnil : f_changes found = []).
  { destruct Hc as [Hc | Hc]; [exact Hc |].
    destruct (discover_Ret _ _ _ _ _ Hd) as (_ & _ & _ & _ & _ & _ & _ & _ & _ & Hpool).
    apply run_pool_Ret in Hpool. rewrite Hpool.
    pose proof (pick_order_complete sched (f_goFiles found)) as Hperm.
    rewrite <- Hperm in Hc. clear Hperm Hpool.
    induction Hc as [| te order Hte _ IH]; [reflexivity |].
    simpl. rewrite (already_canonical_no_patch _ _ _ _ Hte). exact IH. }
  rewrite (main_run _ _ _ _ _ Hp), (run_unchanged _ _ _ _ _ Hd Hnil). simpl.
  repeat split; try assumption.
  eapply emits_only_filter_nil; [| apply discover_emits].
  intros e He. destruct e; try discriminate; reflexivity.
Qed.

Lemma no_changes_no_writes_witness :
  result (main Demo.clean_world Demo.sched ["u/r"]) = Ret tt
  /\ filter is_remote_write (trace (main Demo.clean_world Demo.sched ["u/r"])) = [].
Proof.
  edestruct (no_changes_no_writes Demo.clean_world Demo.sched ["u/r"] "u" "r")
    as (_ & Hret & _ & _ & Hquiet).
  - vm_compute; reflexivity.
  - vm_compute; reflexivity.
  - right. simpl.
    repeat (constructor; [eexists _, _; repeat split; vm_compute; reflexivity |]).
    constructor.
  - split; [exact Hret | exact Hquiet].
Defined.

(** ** Fork, tree, commit, branch, pull request (lines 133-187) *)

Lemma trace_call_Err {A B} (e : event) (err : error) (what : string) (k : A -> M B) :
  trace (bind (call e (Err err) what) k) = [e; ELog (what +:+ ": " +:+ err)].
Proof. reflexivity. Qed.

Lemma trace_deref_None {A B} (k : A -> M B) : trace (bind (deref None) k) = [].
Proof. reflexivity. Qed.


(** Follows an event [H : e ∈ trace (...)] down the code: each call and
    each dereference is split into its two outcomes, and the events passed
    that cannot be [e] are dropped. *)
Ltac walk H :=
  repeat first
    [ progress (rewrite ?bind_assoc in H; cbv beta zeta in H)
    | match type of H with
      | _ ∈ [] => apply elem_of_nil in H; destruct H
      | _ ∈ _ :: _ =>
          apply elem_of_cons in H as [H | H]; [first [discriminate H | idtac] |]
      | _ ∈ trace (bind (log_Printf _) _) => rewrite trace_log_Printf in H
      | _ ∈ trace (bind (deref ?p) _) =>
          destruct p eqn:?;
          [rewrite bind_deref_Some in H | rewrite trace_deref_None in H]
      | _ ∈ trace (bind (call _ ?r _) _) =>
          destruct r eqn:?;
          [rewrite trace_call_Ok in H | rewrite trace_call_Err in H]
      | _ ∈ trace (log_Printf _) =>
          apply list_elem_of_singleton in H; discriminate H
      end ].



(** C6.  Every request of a run that creates a commit is sent to the fork
    (the owner login and name that [CreateFork] returned), and its commit
    has the message [Run gofmt over Go source files.], the id of the tree
    that [CreateTree] just returned, and one parent: the commit that
    [refs/heads/master] of the repository resolved to. *)
Theorem commit_created (w : World) (sched : list nat) (args : list string)
    (o r : string) (c : Commit) :
  ECreateCommit o r c ∈ trace (main w sched args) ->
  exists owner repo found ref obj fork forkOwner treeSHA newTree newTreeSHA,
    result (parse_args args) = Ret (owner, repo)
    /\ result (discover w sched owner repo) = Ret found
    /\ Git_GetRef w owner repo "refs/heads/master" = Ok ref
    /\ ref_Object ref = Some obj
    /\ obj_SHA obj = Some (f_origCommit found)
    /\ Repositories_CreateFork w owner repo = Ok fork
    /\ repo_Owner fork = Some forkOwner
    /\ user_Login forkOwner = Some o
    /\ repo_Name fork = Some r
    /\ tree_SHA (f_tree found) = Some treeSHA
    /\ Git_CreateTree w o r treeSHA (f_changes found) = Ok newTree
    /\ tree_SHA newTree = Some newTreeSHA
    /\ c = {| commit_SHA := None;
              commit_Message := Some "Run gofmt over Go source files.";
              commit_Tree := Some {| tree_SHA := Some newTreeSHA; tree_Entries := [] |};
              commit_Parents :=
                [ {| commit_SHA := Some (f_origCommit found);
                     commit_Message := None;
                     commit_Tree := None;
                     commit_Parents := [] |} ] |}.
Proof.
  intros Hin.
  destruct (main_write_inv _ _ _ _ Hin eq_refl)
    as (owner & repo & found & Hp & Hd & _ & Ha).
  destruct (discover_Ret _ _ _ _ _ Hd)
    as (ref & obj & Href & Hobj & _ & Hsha & _).
  exists owner, repo, found, ref, obj.
  unfold assemble in Ha. walk Ha.
  all: injection Ha as -> -> ->.
  all: repeat esplit; first [eassumption | reflexivity].
Qed.

Lemma commit_created_witness :
  exists c,
    ECreateCommit "bot" "r" c ∈ trace (main Demo.world Demo.sched ["u/r"])
    /\ commit_Message c = Some "Run gofmt over Go source files."
    /\ commit_SHA <$> commit_Parents c = [Some "c0c0c0c0c0"]
    /\ (tree_SHA <$> commit_Tree c) = Some (Some "1111111111").
Proof.
  assert (Hin : ECreateCommit "bot" "r"
                  {| commit_SHA := None;
                     commit_Message := Some "Run gofmt over Go source files.";
                     commit_Tree := Some {| tree_SHA := Some "1111111111";
                                            tree_Entries := [] |};
                     commit_Parents :=
                       [ {| commit_SHA := Some "c0c0c0c0c0";
                            commit_Message := None;
                            commit_Tree := None;
                            commit_Parents := [] |} ] |}
                ∈ trace (main Demo.world Demo.sched ["u/r"])).
  { vm_compute. repeat first [apply list_elem_of_here | apply list_elem_of_further]. }
  eexists. split; [exact Hin |].
  destruct (commit_created _ _ _ _ _ _ Hin)
    as (owner & repo & found & ref & obj & fork & forkOwner & treeSHA
        & newTree & newTreeSHA & _).
  repeat split.
Defined.

Lemma result_log_Printf {B} (text : string) (k : unit -> M B) :
  result (bind (log_Printf text) k) = result (k tt).
Proof. rewrite bind_log_Printf. reflexivity. Qed.

Lemma result_call_Ok {A B} (e : event) (a : A) (what : string) (k : A -> M B) :
  result (bind (call e (Ok a) what) k) = result (k a).
Proof. rewrite call_Ok. reflexivity. Qed.

(** Runs the code in the goal forward, along the answers that are among
    the hypotheses. *)
Ltac run_on :=
  repeat first
    [ rewrite bind_assoc
    | progress cbv beta zeta
    | rewrite result_log_Printf
    | rewrite trace_log_Printf
    | rewrite bind_deref_Some
    | rewrite result_call_Ok
    | rewrite trace_call_Ok
    | match goal with
      | Hx : ?r = Ok _ |- context [call _ ?r _] => rewrite Hx
      | Hx : ?p = Some _ |- context [deref ?p] => rewrite Hx
      end ].

(** C7.  Every request of a run that creates a pull request is sent to the
    repository named by the argument (not to the fork), with the title
    [gofmt everything], the head [login:prbot-gofmt] where [login] is the
    owner login of the fork, the base [master], and the fixed body.  When
    it is answered with a pull request that has a URL, the run logs that
    URL as its last line and [main] returns. *)
Theorem pull_request_created (w : World) (sched : list nat) (args : list string)
    (o r : string) (pull : NewPullRequest) :
  ECreatePullRequest o r pull ∈ trace (main w sched args) ->
  exists fork forkOwner login,
    result (parse_args args) = Ret (o, r)
    /\ Repositories_CreateFork w o r = Ok fork
    /\ repo_Owner fork = Some forkOwner
    /\ user_Login forkOwner = Some login
    /\ pull = {| npr_Title := Some "gofmt everything";
                 npr_Head := Some (login +:+ ":" +:+ "prbot-gofmt");
                 npr_Base := Some "master";
                 npr_Body :=
                   Some "I ran gofmt over this repository using prbot, an automated tool." |}
    /\ (forall pr url,
          PullRequests_Create w o r pull = Ok pr ->
          pr_HTMLURL pr = Some url ->
          result (main w sched args) = Ret tt
          /\ exit_status (result (main w sched args)) = 0%Z
          /\ last (trace (main w sched args)) = Some (ELog ("Pull request: " +:+ url))).
Proof.
  intros Hin.
  destruct (main_write_inv _ _ _ _ Hin eq_refl)
    as (owner & repo & found & Hp & Hd & Hne & Ha).
  assert (Hm : main w sched args
               = (trace (discover w sched owner repo)
                    ++ trace (assemble w owner repo found),
                  result (assemble w owner repo found))).
  { rewrite (main_run _ _ _ _ _ Hp). apply run_changed; assumption. }
  rewrite Hm, !result_pair, trace_pair.
  clear Hin Hm. unfold assemble in Ha. walk Ha.
  all: injection Ha as -> -> ->.
  all: do 3 eexists.
  all: split; [exact Hp |].
  all: split; [eassumption |].
  all: split; [eassumption |].
  all: split; [eassumption |].
  all: split; [reflexivity |].
  all: intros pr url Hpr Hurl; try congruence.
  match goal with
  | Hx : PullRequests_Create _ _ _ _ = Ok ?x |- _ =>
      tryif unify x pr then fail else (assert (x = pr) by congruence; subst x)
  end.
  assert (Hres : result (assemble w owner repo found) = Ret tt).
  { unfold assemble. run_on. reflexivity. }
  rewrite Hres. split; [reflexivity |]. split; [reflexivity |].
  rewrite last_app. unfold assemble. run_on. reflexivity.
Qed.

Lemma pull_request_created_witness :
  exists pull,
    ECreatePullRequest "u" "r" pull ∈ trace (main Demo.world Demo.sched ["u/r"])
    /\ npr_Head pull = Some "bot:prbot-gofmt"
    /\ npr_Base pull = Some "master"
    /\ last (trace (main Demo.world Demo.sched ["u/r"]))
       = Some (ELog "Pull request: https://github.com/u/r/pull/1").
Proof.
  assert (Hin : ECreatePullRequest "u" "r"
                  {| npr_Title := Some "gofmt everything";
                     npr_Head := Some "bot:prbot-gofmt";
                     npr_Base := Some "master";
                     npr_Body :=
                       Some "I ran gofmt over this repository using prbot, an automated tool." |}
                ∈ trace (main Demo.world Demo.sched ["u/r"])).
  { vm_compute. repeat first [apply list_elem_of_here | apply list_elem_of_further]. }
  eexists. split; [exact Hin |].
  destruct (pull_request_created _ _ _ _ _ _ Hin)
    as (fork & forkOwner & login & _ & _ & _ & _ & _ & Hlast).
  split; [reflexivity |]. split; [reflexivity |].
  apply (Hlast {| pr_HTMLURL := Some "https://github.com/u/r/pull/1" |});
    reflexivity.
Defined.

(** * Beyond the claims *)

(** ** Arguments, in full (lines 33-42) *)

Lemma Split_two (s : string) (sep : ascii) :
  forall o r,
    Split s sep = [o; r] ->
    s = o +:+ String sep r /\ Count o sep = 0 /\ Count r sep = 0.
Proof.
  induction s as [| a s IH]; intros o r; simpl; [discriminate |].
  destruct (Ascii.eqb_spec a sep) as [-> | Hne].
  - intros [= <- Hs].
    assert (Hc : Count s sep = 0).
    { pose proof (Split_length s sep) as Hl. rewrite Hs in Hl. simpl in Hl. lia. }
    rewrite (Split_no_sep _ _ Hc) in Hs. injection Hs as <-.
    split; [reflexivity |]. split; [reflexivity | exact Hc].
  - destruct (Split s sep) as [| h t] eqn:Hs; [discriminate |].
    intros [= <- ->]. destruct (IH h r eq_refl) as (-> & Hh & Hr).
    split; [reflexivity |]. split; [| exact Hr].
    simpl. destruct (Ascii.eqb_spec a sep); [contradiction | exact Hh].
Qed.

(** The arguments are accepted exactly when there is one, of the form
    [o/r] with no other [/]; [o] and [r] are then the owner and the
    repository. *)
Lemma parse_args_accepts (args : list string) (o r : string) :
  result (parse_args args) = Ret (o, r) <->
  args = [o +:+ "/" +:+ r] /\ Count o "/"%char = 0 /\ Count r "/"%char = 0.
Proof.
  split.
  - unfold parse_args. destruct args as [| a [| b args]]; try discriminate.
    simpl. destruct (Split a "/"%char) as [| o' [| r' [| x parts]]] eqn:Hs;
      try discriminate.
    simpl. intros [= <- <-].
    destruct (Split_two _ _ _ _ Hs) as (-> & Ho & Hr). auto.
  - intros (-> & Ho & Hr).
    assert (Hs : Split (o +:+ "/" +:+ r) "/"%char = [o; r])
      by exact (Split_one_sep o r "/"%char Ho Hr).
    unfold parse_args. simpl. rewrite Hs. reflexivity.
Qed.

(** X1.  Whatever the positional arguments, [main] does one of two things:
    they are one argument [o/r] with no other [/], and it goes on with
    owner [o] and repository [r]; or they are anything else (none, two or
    more, no [/], several [/]), and all it does is print the usage text
    and exit with status 1. *)
Theorem main_usage_or_run (w : World) (sched : list nat) (args : list string) :
  (exists o r,
      args = [o +:+ "/" +:+ r]
      /\ Count o "/"%char = 0 /\ Count r "/"%char = 0
      /\ main w sched args = run w sched o r)
  \/ ((forall o r,
         Count o "/"%char = 0 -> Count r "/"%char = 0 ->
         args <> [o +:+ "/" +:+ r])
      /\ main w sched args
         = ([EStderr ("usage: prbot <user/repo>" +:+ newline)], Halt (Exit 1))).
Proof.
  destruct (result (parse_args args)) as [[o r] | h] eqn:Hp.
  - left. exists o, r. pose proof (main_run w sched _ _ _ Hp) as Hm.
    apply parse_args_accepts in Hp as (-> & Ho & Hr). auto.
  - right. split.
    + intros o r Ho Hr ->.
      assert (Hacc : result (parse_args [o +:+ "/" +:+ r]) = Ret (o, r))
        by (apply parse_args_accepts; auto).
      congruence.
    + unfold main. revert Hp. unfold parse_args.
      destruct (negb (length args =? 1)%nat); [reflexivity |].
      destruct (negb (length (Split _ _) =? 2)%nat); [reflexivity | discriminate].
Qed.

(** ** The selector, in full (lines 74-84) *)

Lemma select_loop_outcome (entries : list TreeEntry) :
  forall goFiles,
    result (select_loop entries goFiles)
    = if forallb derefable entries
      then Ret (goFiles ++ filter is_candidate entries)
      else Halt NilDeref.
Proof.
  induction entries as [| te rest IH]; intros goFiles.
  - simpl. rewrite app_nil_r. reflexivity.
  - assert (Hf : filter is_candidate (te :: rest)
                 = if is_candidate te then te :: filter is_candidate rest
                   else filter is_candidate rest).
    { rewrite filter_cons. destruct (is_candidate te); reflexivity. }
    rewrite Hf; clear Hf.
    change (forallb derefable (te :: rest))
      with (derefable te && forallb derefable rest).
    simpl select_loop.
    destruct (Type_ te) as [ty |] eqn:Hty.
    2: { unfold derefable. rewrite Hty. reflexivity. }
    rewrite bind_deref_Some.
    destruct (String.eqb ty "blob") eqn:Hblob.
    2: { assert (Hd : derefable te = true)
           by (unfold derefable; rewrite Hty, Hblob; reflexivity).
         assert (Hc : is_candidate te = false)
           by (unfold is_candidate; rewrite Hty, Hblob; destruct (Path te); reflexivity).
         rewrite Hd, Hc. apply IH. }
    destruct (Path te) as [path |] eqn:Hpath.
    2: { unfold derefable. rewrite Hty, Hblob, Hpath. reflexivity. }
    assert (Hd : derefable te = true)
      by (unfold derefable; rewrite Hty, Hblob, Hpath; reflexivity).
    rewrite Hd, bind_deref_Some. simpl andb.
    destruct (HasSuffix path ".go") eqn:Hgo.
    2: { assert (Hc : is_candidate te = false)
           by (unfold is_candidate; rewrite Hty, Hblob, Hpath, Hgo; reflexivity).
         rewrite Hc. apply IH. }
    destruct (Size te) as [size |] eqn:Hsize.
    + change (Z.shiftl 1 20) with 1048576%Z.
      assert (Hc : is_candidate te = (size <=? 1048576)%Z)
        by (unfold is_candidate; rewrite Hty, Hblob, Hpath, Hgo, Hsize; reflexivity).
      rewrite Hc.
      destruct (Z.gtb_spec size 1048576) as [Hgt | Hle]; cbv iota.
      * rewrite result_bind; simpl result. rewrite IH.
        destruct (Z.leb_spec size 1048576); [lia | reflexivity].
      * rewrite IH. destruct (Z.leb_spec size 1048576); [| lia].
        destruct (forallb derefable rest); [| reflexivity].
        rewrite <- app_assoc; reflexivity.
    + assert (Hc : is_candidate te = true)
        by (unfold is_candidate; rewrite Hty, Hblob, Hpath, Hgo, Hsize; reflexivity).
      rewrite Hc, IH. destruct (forallb derefable rest); [| reflexivity].
      rewrite <- app_assoc; reflexivity.
Qed.

(** X2.  On any listing at all the selector does one of two things.  If
    every entry has a type, and a path when it is a blob, it returns the
    entries that are Go blobs within the size limit.  If not, the nil
    pointer is dereferenced and the program stops there. *)
Theorem select_candidates_outcome (entries : list TreeEntry) :
  result (select_candidates entries)
  = if forallb derefable entries
    then Ret (filter is_candidate entries)
    else Halt NilDeref.
Proof. apply (select_loop_outcome entries []). Qed.

Lemma select_loop_trace (entries : list TreeEntry) :
  Forall listed entries ->
  forall goFiles,
    trace (select_loop entries goFiles) = warning <$> filter too_big entries.
Proof.
  induction 1 as [| te rest [[ty Hty] [path Hpath]] Hl IH]; intros goFiles;
    [reflexivity |].
  assert (Hf : filter too_big (te :: rest)
               = if too_big te then te :: filter too_big rest
                 else filter too_big rest).
  { rewrite filter_cons. destruct (too_big te); reflexivity. }
  rewrite Hf; clear Hf. simpl select_loop.
  rewrite Hty, bind_deref_Some.
  destruct (String.eqb ty "blob") eqn:Hblob.
  2: { assert (Hc : too_big te = false)
         by (unfold too_big; rewrite Hty, Hpath, Hblob; destruct (Size te); reflexivity).
       rewrite Hc. apply IH. }
  rewrite Hpath, bind_deref_Some.
  destruct (HasSuffix path ".go") eqn:Hgo.
  2: { assert (Hc : too_big te = false)
         by (unfold too_big; rewrite Hty, Hpath, Hblob, Hgo; destruct (Size te); reflexivity).
       rewrite Hc. apply IH. }
  destruct (Size te) as [size |] eqn:Hsize.
  2: { assert (Hc : too_big te = false)
         by (unfold too_big; rewrite Hty, Hpath, Hsize; reflexivity).
       rewrite Hc. apply IH. }
  change (Z.shiftl 1 20) with 1048576%Z.
  assert (Hc : too_big te = (size >? 1048576)%Z)
    by (unfold too_big; rewrite Hty, Hpath, Hsize, Hblob, Hgo; reflexivity).
  rewrite Hc. destruct (size >? 1048576)%Z; [| apply IH].
  rewrite trace_log_Printf, IH, fmap_cons. f_equal.
  unfold warning. rewrite Hpath. reflexivity.
Qed.

(** X3.  The selector logs one warning, with the path, for each Go blob
    above 1 MiB, in the order of the listing, and nothing else: a file
    that is left out for its type or its name is left out silently. *)
Theorem select_candidates_warnings (entries : list TreeEntry) :
  Forall listed entries ->
  trace (select_candidates entries) = warning <$> filter too_big entries.
Proof. intros Hl. apply (select_loop_trace entries Hl []). Qed.

Lemma select_candidates_warnings_witness :
  Forall listed Demo.entries
  /\ trace (select_candidates Demo.entries)
     = [ELog "Warning: Skipping big.go because it is too big"].
Proof.
  assert (Hl : Forall listed Demo.entries).
  { repeat constructor; simpl; eauto. }
  split; [exact Hl |].
  rewrite (select_candidates_warnings Demo.entries Hl). reflexivity.
Defined.

(** ** The goroutines, further (lines 102-127, 190-204) *)

Lemma worker_requests (w : World) (owner repo : string) (te : TreeEntry) :
  fetchable te ->
  omap sent_request (trace (worker w owner repo te []))
  = option_list (blob_request w owner repo te).
Proof.
  intros [[path Hpath] [sha Hsha]]. unfold worker, blob_request.
  rewrite Hpath, Hsha, !bind_deref_Some, trace_bind, omap_app.
  unfold rawBlob.
  destruct (gh_NewRequest w "GET" _) as [req | e]; [| reflexivity].
  rewrite bind_emit.
  destruct (gh_Do w _) as [input | e]; simpl; [| reflexivity].
  destruct (format_Source w input) as [out | e]; [| reflexivity].
  case_bool_decide; reflexivity.
Qed.

(** X4.  While the goroutines run, the blob of each candidate is asked for
    once: the requests sent are, up to their order, one [GET
    repos/owner/repo/git/blobs/sha] per candidate, with the [Accept] header
    set to the raw media type (none for a candidate whose request could not
    be built). *)
Theorem pool_requests_each_blob_once (w : World) (owner repo : string)
    (sched : list nat) (goFiles : list TreeEntry) :
  Forall fetchable goFiles ->
  omap sent_request (trace (run_pool w owner repo sched goFiles))
  ≡ₚ omap (blob_request w owner repo) goFiles.
Proof.
  intros Hf. rewrite (run_pool_fetchable _ _ _ _ _ Hf), trace_pair.
  pose proof (pick_order_complete sched goFiles) as Hperm.
  set (order := fst (pick_order (length goFiles) sched goFiles)) in *.
  assert (Hfo : Forall fetchable order) by (rewrite Hperm; exact Hf).
  rewrite <- Hperm. clearbody order. clear Hperm Hf.
  induction Hfo as [| te order Hte _ IH]; [reflexivity |].
  simpl concat. rewrite omap_app, (worker_requests _ _ _ _ Hte), IH.
  simpl. destruct (blob_request w owner repo te); reflexivity.
Qed.

Lemma pool_requests_each_blob_once_witness :
  Forall fetchable Demo.goFiles
  /\ omap sent_request (trace (run_pool Demo.world "u" "r" Demo.sched Demo.goFiles))
     ≡ₚ omap (blob_request Demo.world "u" "r") Demo.goFiles
  /\ length (omap (blob_request Demo.world "u" "r") Demo.goFiles) = 5.
Proof.
  assert (Hf : Forall fetchable Demo.goFiles).
  { repeat constructor; simpl; eauto. }
  split; [exact Hf |]. split; [| reflexivity].
  exact (pool_requests_each_blob_once Demo.world "u" "r" Demo.sched Demo.goFiles Hf).
Defined.











(** ** The token, the branch and the tree (lines 44-73) *)

Lemma M_ext {A} (m : M A) (t : list event) (r : outcome A) :
  trace m = t -> result m = r -> m = (t, r).
Proof. destruct m; simpl; congruence. Qed.

Lemma trace_log_Fatalf {A B} (text : string) (k : A -> M B) :
  trace (bind (log_Fatalf text) k) = [ELog text].
Proof. reflexivity. Qed.

(** X8.  When the token file cannot be read, the run is over at once: the
    read, the log line [Reading auth token: ...] with the error, and exit
    status 1.  Nothing is sent to GitHub. *)
Theorem token_unreadable_is_fatal (w : World) (sched : list nat)
    (args : list string) (owner repo : string) (err : error) :
  result (parse_args args) = Ret (owner, repo) ->
  ReadFile w (tokenFile w) = Err err ->
  main w sched args
  = ([EReadFile (tokenFile w); ELog ("Reading auth token: " +:+ err)],
     Halt (Exit 1)).
Proof.
  intros Hp Htok. rewrite (main_run _ _ _ _ _ Hp).
  unfold run, discover, fetch_tree. fold (tokenFile w). rewrite Htok.
  rewrite !bind_assoc. reflexivity.
Qed.

Lemma token_unreadable_is_fatal_witness :
  main Faults.no_token Demo.sched ["u/r"]
  = ([EReadFile "/home/bot/.prbot-token";
      ELog "Reading auth token: open /home/bot/.prbot-token: no such file or directory"],
     Halt (Exit 1)).
Proof.
  exact (token_unreadable_is_fatal Faults.no_token Demo.sched ["u/r"] "u" "r"
           "open /home/bot/.prbot-token: no such file or directory"
           eq_refl eq_refl).
Defined.

(** X9.  When [refs/heads/master] is resolved to something that is not a
    commit, the run stops with [branch master does not point at a commit]
    and exit status 1; the tree is not asked for. *)
Theorem branch_not_a_commit_is_fatal (w : World) (sched : list nat)
    (args : list string) (owner repo : string) (token : bytes)
    (ref : Reference) (obj : GitObject) (ty : string) :
  result (parse_args args) = Ret (owner, repo) ->
  ReadFile w (tokenFile w) = Ok token ->
  Git_GetRef w owner repo "refs/heads/master" = Ok ref ->
  ref_Object ref = Some obj ->
  obj_Type obj = Some ty ->
  ty <> "commit" ->
  main w sched args
  = ([EReadFile (tokenFile w);
      ELog ("Resolving branch master in github.com/" +:+ owner +:+ "/" +:+ repo +:+ " ...");
      EGetRef owner repo "refs/heads/master";
      ELog "branch master does not point at a commit"],
     Halt (Exit 1)).
Proof.
  intros Hp Htok Href Hobj Hty Hne. rewrite (main_run _ _ _ _ _ Hp).
  assert (Hnot : negb (String.eqb ty "commit") = true).
  { destruct (String.eqb_spec ty "commit"); [contradiction | reflexivity]. }
  apply M_ext; unfold run, discover, fetch_tree; fold (tokenFile w);
    change ("refs/heads/" +:+ branch) with "refs/heads/master";
    run_on; rewrite Hnot; reflexivity.
Qed.

Lemma branch_not_a_commit_is_fatal_witness :
  result (main Faults.master_is_a_tag Demo.sched ["u/r"]) = Halt (Exit 1)
  /\ filter is_network (trace (main Faults.master_is_a_tag Demo.sched ["u/r"]))
     = [EGetRef "u" "r" "refs/heads/master"].
Proof.
  assert (Hne : "tag" <> "commit") by discriminate.
  rewrite (branch_not_a_commit_is_fatal Faults.master_is_a_tag Demo.sched ["u/r"]
             "u" "r" (list_byte_of_string "s3cr3t") Faults.tag_ref Faults.tag_object
             "tag" eq_refl eq_refl eq_refl eq_refl eq_refl Hne).
  split; reflexivity.
Defined.

Lemma select_loop_emits_logs (entries : list TreeEntry) :
  forall goFiles, emits_only is_log (select_loop entries goFiles).
Proof.
  induction entries as [| te rest IH]; intros goFiles; simpl;
    repeat first [apply IH | emits_only_step].
Qed.

Lemma pool_steps_emits_requests (w : World) (owner repo : string) (n : nat) :
  forall sched st,
    emits_only (fun e => is_log e || is_blob_request e)
      (pool_steps w owner repo n sched st).
Proof.
  induction n as [| n IH]; intros sched st; simpl; [apply emits_only_ret |].
  apply emits_only_bind; [| intros; apply IH].
  unfold pool_step, worker, rawBlob. repeat emits_only_step.
Qed.

Lemma assemble_emits_writes (w : World) (owner repo : string) (found : Found) :
  emits_only (fun e => is_log e || is_remote_write e) (assemble w owner repo found).
Proof. unfold assemble, log_Printf. repeat emits_only_step. Qed.

Lemma emits_only_elem {A} (P : event -> bool) (m : M A) (e : event) :
  emits_only P m -> e ∈ trace m -> P e = true.
Proof. unfold emits_only. rewrite Forall_forall. auto. Qed.

(** An event of a run that is neither the usage text, nor a log line, nor
    a request that creates something, comes from lines 44-128. *)
Lemma main_read_inv (w : World) (sched : list nat) (args : list string)
    (e : event) :
  e ∈ trace (main w sched args) ->
  is_read e = true -> is_log e = false ->
  exists owner repo,
    result (parse_args args) = Ret (owner, repo)
    /\ e ∈ trace (discover w sched owner repo).
Proof.
  intros Hin Hread Hlog.
  destruct (main_usage_or_run w sched args)
    as [(o & r & -> & Ho & Hr & Hm) | [_ Hm]]; rewrite Hm in Hin.
  - exists o, r. split; [apply parse_args_accepts; auto |].
    unfold run in Hin. rewrite trace_bind in Hin.
    apply elem_of_app in Hin as [Hin | Hin]; [exact Hin |].
    destruct (result (discover w sched o r)) as [found |];
      [| apply elem_of_nil in Hin; destruct Hin].
    destruct (length (f_changes found) =? 0)%nat;
      [apply elem_of_nil in Hin; destruct Hin |].
    apply (emits_only_elem _ _ _ (assemble_emits_writes w o r found)) in Hin.
    destruct e; discriminate.
  - apply list_elem_of_singleton in Hin. subst e. discriminate.
Qed.

(** Follows an event through lines 44-73 as [walk] does, with the test of
    line 63 and [log.Fatalf]. *)
Ltac walk_fetch H :=
  repeat first
    [ progress walk H
    | match type of H with
      | _ ∈ trace (bind (if ?b then _ else _) _) => destruct b eqn:?
      | _ ∈ trace (bind (log_Fatalf _) _) => rewrite trace_log_Fatalf in H
      end ].

(** X10.  Every request of a run for a tree is for the repository of the
    argument, recursive, and at the commit that [refs/heads/master] was
    just resolved to, an object of type [commit]. *)
Theorem tree_fetched_at_resolved_commit (w : World) (sched : list nat)
    (args : list string) (o r sha : string) (recursive : bool) :
  EGetTree o r sha recursive ∈ trace (main w sched args) ->
  result (parse_args args) = Ret (o, r)
  /\ recursive = true
  /\ exists ref obj,
       Git_GetRef w o r "refs/heads/master" = Ok ref
       /\ ref_Object ref = Some obj
       /\ obj_Type obj = Some "commit"
       /\ obj_SHA obj = Some sha.
Proof.
  intros Hin.
  destruct (main_read_inv _ _ _ _ Hin eq_refl eq_refl) as (owner & repo & Hp & Hd).
  clear Hin. unfold discover, fetch_tree in Hd. walk_fetch Hd.
  all: match type of Hd with
       | _ = _ =>
           match goal with
           | Hty : negb (String.eqb ?ty "commit") = false |- _ =>
               apply negb_false_iff, String.eqb_eq in Hty; subst ty
           end;
           injection Hd as -> -> -> ->; eauto 10
       | _ => exfalso
       end.
  revert Hd. unfold select_candidates, run_pool, log_Printf.
  match goal with
  | |- _ ∈ trace ?m -> _ =>
      assert (Hem : emits_only (fun e => is_log e || is_blob_request e) m)
  end.
  { repeat first [ eapply emits_only_impl;
                   [| apply select_loop_emits_logs]; intros ? ->; reflexivity
                 | apply pool_steps_emits_requests
                 | emits_only_step ]. }
  intros Hd. apply (emits_only_elem _ _ _ Hem) in Hd. discriminate.
Qed.

Lemma tree_fetched_at_resolved_commit_witness :
  EGetTree "u" "r" "c0c0c0c0c0" true ∈ trace (main Demo.world Demo.sched ["u/r"])
  /\ exists ref obj,
       Git_GetRef Demo.world "u" "r" "refs/heads/master" = Ok ref
       /\ ref_Object ref = Some obj
       /\ obj_Type obj = Some "commit"
       /\ obj_SHA obj = Some "c0c0c0c0c0".
Proof.
  assert (Hin : EGetTree "u" "r" "c0c0c0c0c0" true
                ∈ trace (main Demo.world Demo.sched ["u/r"])).
  { vm_compute. repeat first [apply list_elem_of_here | apply list_elem_of_further]. }
  split; [exact Hin |].
  exact (proj2 (proj2 (tree_fetched_at_resolved_commit _ _ _ _ _ _ _ Hin))).
Defined.

(** ** Fork, tree, commit, branch, pull request, further (lines 129-187) *)

(** X11.  A run asks for a fork of [o/r] exactly when [o/r] is the
    repository of the argument, lines 44-128 went through, and the
    changeset they left is not empty. *)
Theorem fork_requested_iff_changes (w : World) (sched : list nat)
    (args : list string) (o r : string) :
  ECreateFork o r ∈ trace (main w sched args) <->
  result (parse_args args) = Ret (o, r)
  /\ exists found,
       result (discover w sched o r) = Ret found /\ f_changes found <> [].
Proof.
  split.
  - intros Hin.
    destruct (main_write_inv _ _ _ _ Hin eq_refl)
      as (owner & repo & found & Hp & Hd & Hne & Ha).
    unfold assemble in Ha. walk Ha.
    all: injection Ha as -> ->; eauto.
  - intros (Hp & found & Hd & Hne).
    rewrite (main_run _ _ _ _ _ Hp), (run_changed _ _ _ _ _ Hd Hne), trace_pair.
    apply elem_of_app; right.
    unfold assemble. rewrite trace_log_Printf. unfold call.
    rewrite bind_assoc, trace_emit.
    apply list_elem_of_further, list_elem_of_here.
Qed.

(** X12.  Every request of a run that creates a reference is sent to the
    fork, for the branch [refs/heads/prbot-gofmt], and points it at an
    object of type [commit]: the commit that [CreateCommit] just
    returned. *)
Theorem branch_points_at_new_commit (w : World) (sched : list nat)
    (args : list string) (o r : string) (ref : Reference) :
  ECreateRef o r ref ∈ trace (main w sched args) ->
  exists owner repo fork forkOwner commit comm commSHA,
    result (parse_args args) = Ret (owner, repo)
    /\ Repositories_CreateFork w owner repo = Ok fork
    /\ repo_Owner fork = Some forkOwner
    /\ user_Login forkOwner = Some o
    /\ repo_Name fork = Some r
    /\ ECreateCommit o r commit ∈ trace (main w sched args)
    /\ Git_CreateCommit w o r commit = Ok comm
    /\ commit_SHA comm = Some commSHA
    /\ ref = {| ref_Ref := Some "refs/heads/prbot-gofmt";
                ref_Object := Some {| obj_Type := Some "commit";
                                      obj_SHA := Some commSHA |} |}.
Proof.
  intros Hin.
  destruct (main_write_inv _ _ _ _ Hin eq_refl)
    as (owner & repo & found & Hp & Hd & Hne & Ha).
  assert (Hm : trace (main w sched args)
               = trace (discover w sched owner repo)
                   ++ trace (assemble w owner repo found)).
  { rewrite (main_run _ _ _ _ _ Hp), (run_changed _ _ _ _ _ Hd Hne).
    reflexivity. }
  rewrite Hm. clear Hin Hm. unfold assemble in Ha. walk Ha.
  all: injection Ha as -> -> ->.
  all: do 7 eexists.
  all: split; [exact Hp |].
  all: split; [eassumption |].
  all: split; [eassumption |].
  all: split; [eassumption |].
  all: split; [eassumption |].
  all: split; [| split; [eassumption | split; [eassumption | reflexivity]]].
  all: apply elem_of_app; right; unfold assemble; run_on.
  all: repeat first [apply list_elem_of_here | apply list_elem_of_further].
Qed.

Lemma branch_points_at_new_commit_witness :
  exists ref,
    ECreateRef "bot" "r" ref ∈ trace (main Demo.world Demo.sched ["u/r"])
    /\ ref = {| ref_Ref := Some "refs/heads/prbot-gofmt";
                ref_Object := Some {| obj_Type := Some "commit";
                                      obj_SHA := Some "2222222222" |} |}.
Proof.
  assert (Hin : ECreateRef "bot" "r"
                  {| ref_Ref := Some "refs/heads/prbot-gofmt";
                     ref_Object := Some {| obj_Type := Some "commit";
                                           obj_SHA := Some "2222222222" |} |}
                ∈ trace (main Demo.world Demo.sched ["u/r"])).
  { vm_compute. repeat first [apply list_elem_of_here | apply list_elem_of_further]. }
  eexists. split; [exact Hin |].
  destruct (branch_points_at_new_commit _ _ _ _ _ _ Hin)
    as (owner & repo & fork & forkOwner & commit & comm & commSHA & _).
  reflexivity.
Defined.

Lemma reads_have_no_step {A} (m : M A) :
  emits_only is_read m -> omap step_of (trace m) = [].
Proof.
  unfold emits_only. intros Hm.
  induction Hm as [| e l He _ IH]; [reflexivity |].
  destruct e; try discriminate He; exact IH.
Qed.

(** Splits the code in the goal into the outcomes of each call and each
    dereference. *)
Ltac split_run :=
  repeat first
    [ rewrite bind_assoc
    | progress cbv beta zeta
    | rewrite trace_log_Printf
    | match goal with
      | |- context [trace (bind (deref ?p) _)] =>
          destruct p; [rewrite bind_deref_Some | rewrite trace_deref_None]
      | |- context [trace (bind (call _ ?r _) _)] =>
          destruct r; [rewrite trace_call_Ok | rewrite trace_call_Err]
      end ].

Lemma assemble_steps_in_order (w : World) (owner repo : string) (found : Found) :
  omap step_of (trace (assemble w owner repo found))
  `prefix_of` [Forked; TreeBuilt; Committed; Branched; PRCreated].
Proof.
  unfold assemble. split_run.
  all: simpl; eexists; reflexivity.
Qed.

(** X13.  In every run the requests that create something are sent in the
    order fork, tree, commit, branch, pull request, each at most once, and
    none is sent unless all those before it were: they are a prefix of
    that sequence. *)
Theorem writes_in_order (w : World) (sched : list nat) (args : list string) :
  omap step_of (trace (main w sched args))
  `prefix_of` [Forked; TreeBuilt; Committed; Branched; PRCreated].
Proof.
  destruct (main_usage_or_run w sched args)
    as [(o & r & -> & Ho & Hr & Hm) | [_ Hm]]; rewrite Hm;
    [| apply prefix_nil].
  unfold run. rewrite trace_bind, omap_app.
  rewrite (reads_have_no_step _ (discover_emits w sched o r)). simpl.
  destruct (result (discover w sched o r)) as [found |]; [| apply prefix_nil].
  destruct (length (f_changes found) =? 0)%nat; [apply prefix_nil |].
  apply assemble_steps_in_order.
Qed.

(** X14.  Once a run has sent a request that creates something, it reads
    nothing more: its trace is a first part without any such request,
    followed by a second part made only of them and of log lines.  No blob
    is fetched, and no tree or branch read, after the fork was asked for. *)
Theorem reads_before_writes (w : World) (sched : list nat) (args : list string) :
  exists before after,
    trace (main w sched args) = before ++ after
    /\ Forall (fun e => is_remote_write e = false) before
    /\ Forall (fun e => is_log e || is_remote_write e = true) after
    /\ (after <> [] -> exists rest, after = ELog "Creating fork ..." :: rest).
Proof.
  destruct (main_usage_or_run w sched args)
    as [(o & r & -> & Ho & Hr & Hm) | [_ Hm]]; rewrite Hm.
  - unfold run. rewrite trace_bind.
    exists (trace (discover w sched o r)). eexists. split; [reflexivity |].
    split.
    { eapply Forall_impl; [apply discover_emits |].
      intros e He. destruct e; try discriminate; reflexivity. }
    destruct (result (discover w sched o r)) as [found |];
      [| split; [constructor | congruence]].
    destruct (length (f_changes found) =? 0)%nat;
      [split; [constructor | intros []; reflexivity] |].
    split; [apply assemble_emits_writes |].
    intros _. unfold assemble. rewrite trace_log_Printf. eauto.
  - exists [EStderr ("usage: prbot <user/repo>" +:+ newline)], [].
    split; [reflexivity |]. split; [repeat constructor |].
    split; [constructor | congruence].
Qed.

(** ** How a run ends *)

(** Follows a run that returned, [H : result (...) = Ret _], down the code:
    every call was answered and every pointer was there. *)
Ltac walk_result H :=
  repeat first
    [ progress (rewrite ?bind_assoc in H; cbv beta zeta in H)
    | rewrite result_log_Printf in H
    | match type of H with
      | result (bind (deref ?p) _) = Ret _ =>
          destruct p eqn:?; [rewrite bind_deref_Some in H | discriminate H]
      | result (bind (call _ ?r _) _) = Ret _ =>
          destruct r eqn:?; [rewrite result_call_Ok in H | discriminate H]
      end ].

(** X15.  When [main] returns (exit status 0), either the changeset was
    empty and nothing was created, or all five requests were sent and
    answered, the last one with a pull request whose URL is the last line
    logged.  A run never ends well half-way through the five steps. *)
Theorem success_is_nothing_or_pull_request (w : World) (sched : list nat)
    (args : list string) :
  result (main w sched args) = Ret tt ->
  filter is_remote_write (trace (main w sched args)) = []
  \/ exists o r pull pr url,
       omap step_of (trace (main w sched args))
       = [Forked; TreeBuilt; Committed; Branched; PRCreated]
       /\ ECreatePullRequest o r pull ∈ trace (main w sched args)
       /\ PullRequests_Create w o r pull = Ok pr
       /\ pr_HTMLURL pr = Some url
       /\ last (trace (main w sched args)) = Some (ELog ("Pull request: " +:+ url)).
Proof.
  intros Hret.
  destruct (main_usage_or_run w sched args)
    as [(o & r & -> & Ho & Hr & Hm) | [_ Hm]]; rewrite Hm in *;
    [| discriminate].
  clear Hm. unfold run in Hret.
  apply result_bind_Ret in Hret as (found & Hd & Hret).
  destruct (f_changes found) as [| c chg] eqn:Hc.
  { left. rewrite (run_unchanged _ _ _ _ _ Hd Hc), trace_pair.
    eapply emits_only_filter_nil; [| apply discover_emits].
    intros e He. destruct e; try discriminate; reflexivity. }
  right. simpl in Hret.
  assert (Hne : f_changes found <> []) by congruence.
  rewrite (run_changed _ _ _ _ _ Hd Hne), trace_pair.
  clear Hc. unfold assemble in Hret. walk_result Hret.
  do 5 eexists. split; [| split; [| split; [eassumption | split; [eassumption |]]]].
  - rewrite omap_app, (reads_have_no_step _ (discover_emits w sched o r)).
    unfold assemble. run_on. reflexivity.
  - apply elem_of_app; right. unfold assemble. run_on.
    repeat first [apply list_elem_of_here | apply list_elem_of_further].
  - rewrite last_app. unfold assemble. run_on. reflexivity.
Qed.

Lemma success_is_nothing_or_pull_request_witness :
  result (main Demo.world Demo.sched ["u/r"]) = Ret tt
  /\ omap step_of (trace (main Demo.world Demo.sched ["u/r"]))
     = [Forked; TreeBuilt; Committed; Branched; PRCreated].
Proof.
  assert (Hret : result (main Demo.world Demo.sched ["u/r"]) = Ret tt)
    by (vm_compute; reflexivity).
  split; [exact Hret |].
  destruct (success_is_nothing_or_pull_request Demo.world Demo.sched ["u/r"] Hret)
    as [Hnone | (o & r & pull & pr & url & Hsteps & _)].
  - vm_compute in Hnone. discriminate Hnone.
  - exact Hsteps.
Defined.











Lemma result_call_Err {A B} (e : event) (err : error) (what : string) (k : A -> M B) :
  result (bind (call e (Err err) what) k) = Halt (Exit 1).
Proof. reflexivity. Qed.

(** Runs the code in the goal forward as [run_on] does, up to and through
    the call that was answered with an error. *)
Ltac run_to_error :=
  run_on;
  match goal with
  | Hx : ?r = Err _ |- context [call _ ?r _] => rewrite Hx
  end;
  rewrite ?trace_call_Err, ?result_call_Err.

(** X17.  Each of the five steps is fatal when it fails: if a request that
    creates something is answered with an error, it is the last such
    request of the run, the run logs the error last, and exits with status
    1.  What was created before stays as it is: nothing is sent to undo
    it. *)
Theorem failed_step_is_fatal (w : World) (sched : list nat) (args : list string)
    (e : event) (err : error) :
  e ∈ trace (main w sched args) ->
  answer_error w e = Some err ->
  result (main w sched args) = Halt (Exit 1)
  /\ last (filter is_remote_write (trace (main w sched args))) = Some e
  /\ exists what, last (trace (main w sched args)) = Some (ELog (what +:+ ": " +:+ err)).
Proof.
  intros Hin Herr.
  assert (Hw : is_remote_write e = true) by (destruct e; try discriminate; reflexivity).
  destruct (main_write_inv _ _ _ _ Hin Hw)
    as (owner & repo & found & Hp & Hd & Hne & Ha).
  rewrite (main_run _ _ _ _ _ Hp), (run_changed _ _ _ _ _ Hd Hne),
    result_pair, trace_pair, filter_app, last_app.
  rewrite (emits_only_filter_nil is_read is_remote_write
             (discover w sched owner repo));
    [| intros e' He'; destruct e'; try discriminate; reflexivity
     | apply discover_emits].
  rewrite ?app_nil_l.
  clear Hin Hw. unfold assemble in Ha. walk Ha.
  all: try match type of Ha with
           | _ ∈ trace (log_Printf _) => apply (proj1 (list_elem_of_singleton _ _)) in Ha
           end.
  all: subst e; simpl in Herr.
  all: try discriminate Herr.
  all: match type of Herr with
       | context [match ?r with _ => _ end] =>
           match goal with
           | Hx : r = _ |- _ => rewrite Hx in Herr
           end
       end.
  all: try discriminate Herr.
  all: injection Herr as <-.
  all: split; [unfold assemble; run_to_error; reflexivity |].
  all: split; [unfold assemble; run_to_error; reflexivity |].
  all: eexists; rewrite last_app; unfold assemble; run_to_error; reflexivity.
Qed.

Lemma failed_step_is_fatal_witness :
  exists commit,
    ECreateCommit "bot" "r" commit ∈ trace (main Faults.no_commit Demo.sched ["u/r"])
    /\ result (main Faults.no_commit Demo.sched ["u/r"]) = Halt (Exit 1)
    /\ last (filter is_remote_write (trace (main Faults.no_commit Demo.sched ["u/r"])))
       = Some (ECreateCommit "bot" "r" commit).
Proof.
  assert (Hin : ECreateCommit "bot" "r"
                  {| commit_SHA := None;
                     commit_Message := Some "Run gofmt over Go source files.";
                     commit_Tree := Some {| tree_SHA := Some "1111111111";
                                            tree_Entries := [] |};
                     commit_Parents :=
                       [ {| commit_SHA := Some "c0c0c0c0c0";
                            commit_Message := None;
                            commit_Tree := None;
                            commit_Parents := [] |} ] |}
                ∈ trace (main Faults.no_commit Demo.sched ["u/r"])).
  { vm_compute. repeat first [apply list_elem_of_here | apply list_elem_of_further]. }
  eexists. split; [exact Hin |].
  destruct (failed_step_is_fatal Faults.no_commit Demo.sched ["u/r"] _
              "422 Unprocessable Entity" Hin eq_refl) as (Hres & Hlast & _).
  split; [exact Hres | exact Hlast].
Defined.

(** ** From the listing to the tree sent *)

(** X18.  Every request of a run that creates a tree carries, as its
    entries, the gofmt patches of the Go blobs (within the size limit) of
    the tree it fetched, one each, in some order; it is based on the id of
    that tree, and it is never sent without entries. *)
Theorem tree_request_end_to_end (w : World) (sched : list nat)
    (args : list string) (o r base : string) (entries : list TreeEntry) :
  ECreateTree o r base entries ∈ trace (main w sched args) ->
  exists owner repo commitSHA tree,
    result (parse_args args) = Ret (owner, repo)
    /\ Git_GetTree w owner repo commitSHA true = Ok tree
    /\ tree_SHA tree = Some base
    /\ entries <> []
    /\ entries ≡ₚ omap (patch_of w owner repo)
                    (filter is_candidate (tree_Entries tree)).
Proof.
  intros Hin.
  destruct (main_write_inv _ _ _ _ Hin eq_refl)
    as (owner & repo & found & Hp & Hd & Hne & Ha).
  destruct (discover_Ret _ _ _ _ _ Hd)
    as (ref & obj & _ & _ & _ & _ & Htree & _ & Hsel & Hpool).
  rewrite select_candidates_outcome in Hsel.
  destruct (forallb derefable (tree_Entries (f_tree found))); [| discriminate].
  injection Hsel as Hsel. apply run_pool_Ret in Hpool.
  pose proof (pick_order_complete sched (f_goFiles found)) as Hperm.
  exists owner, repo, (f_origCommit found), (f_tree found).
  clear Hin. unfold assemble in Ha. walk Ha.
  all: injection Ha as -> -> -> ->.
  all: split; [exact Hp |].
  all: split; [exact Htree |].
  all: split; [first [assumption | reflexivity] |].
  all: split; [exact Hne |].
  all: rewrite Hsel, <- Hperm, <- Hpool; reflexivity.
Qed.

Lemma tree_request_end_to_end_witness :
  ECreateTree "bot" "r" "7777777777" [Demo.b_patch]
    ∈ trace (main Demo.world Demo.sched ["u/r"])
  /\ exists owner repo commitSHA tree,
       result (parse_args ["u/r"]) = Ret (owner, repo)
       /\ Git_GetTree Demo.world owner repo commitSHA true = Ok tree
       /\ tree_SHA tree = Some "7777777777"
       /\ [Demo.b_patch] <> []
       /\ [Demo.b_patch] ≡ₚ omap (patch_of Demo.world owner repo)
                              (filter is_candidate (tree_Entries tree)).
Proof.
  assert (Hin : ECreateTree "bot" "r" "7777777777" [Demo.b_patch]
                ∈ trace (main Demo.world Demo.sched ["u/r"])).
  { vm_compute. repeat first [apply list_elem_of_here | apply list_elem_of_further]. }
  split; [exact Hin |].
  exact (tree_request_end_to_end Demo.world Demo.sched ["u/r"] _ _ _ _ Hin).
Defined.

(** ** Nil pointers *)

Lemma discover_complete (w : World) (sched : list nat) (owner repo : string) :
  complete_answers w ->
  match result (discover w sched owner repo) with
  | Ret found => is_Some (tree_SHA (f_tree found))
  | Halt (Exit _) => True
  | Halt NilDeref => False
  end.
Proof.
  intros Hc. unfold discover, fetch_tree. rewrite ?bind_assoc.
  destruct (ReadFile w _) as [token | err];
    [rewrite result_call_Ok | exact I].
  rewrite ?bind_assoc, result_log_Printf, ?bind_assoc.
  destruct (Git_GetRef w owner repo _) as [ref | err] eqn:Href;
    [rewrite result_call_Ok | exact I].
  destruct (ref_complete w Hc _ _ _ _ Href) as (obj & Hobj & [ty Hty] & [sha Hsha]).
  rewrite Hobj, ?bind_assoc, bind_deref_Some, Hty, ?bind_assoc, bind_deref_Some.
  destruct (negb (String.eqb ty "commit")); [exact I |].
  rewrite Hsha, ?bind_assoc, bind_deref_Some, ?bind_assoc, result_log_Printf,
    ?bind_assoc.
  destruct (Git_GetTree w owner repo sha true) as [tree | err] eqn:Htree;
    [rewrite result_call_Ok | exact I].
  destruct (tree_complete w Hc _ _ _ _ _ Htree) as ([tsha Htsha] & Hentries).
  rewrite Htsha, ?bind_assoc, bind_deref_Some, ?bind_assoc, result_log_Printf,
    bind_ret_l.
  cbv beta. simpl fst; simpl snd.
  assert (Hlisted : Forall listed (tree_Entries tree)).
  { eapply Forall_impl; [exact Hentries |]. intros te (? & ? & ?). split; assumption. }
  rewrite result_bind. unfold select_candidates.
  rewrite (select_loop_result _ [] Hlisted), app_nil_l, result_log_Printf.
  assert (Hfetch : Forall fetchable (filter is_candidate (tree_Entries tree))).
  { apply Forall_forall. intros te [_ Hte]%list_elem_of_filter.
    rewrite Forall_forall in Hentries.
    destruct (Hentries te Hte) as (_ & ? & ?). split; assumption. }
  rewrite result_bind, (run_pool_fetchable _ _ _ _ _ Hfetch), result_pair,
    result_log_Printf.
  simpl. eauto.
Qed.

Lemma assemble_complete (w : World) (owner repo : string) (found : Found) :
  complete_answers w ->
  is_Some (tree_SHA (f_tree found)) ->
  result (assemble w owner repo found) <> Halt NilDeref.
Proof.
  intros Hc [tsha Htsha]. unfold assemble.
  rewrite result_log_Printf.
  destruct (Repositories_CreateFork w owner repo) as [fork | err] eqn:Hfork;
    [rewrite result_call_Ok | discriminate].
  destruct (fork_complete w Hc _ _ _ Hfork)
    as ([url Hurl] & [name Hname] & u & Hu & [login Hlogin]).
  rewrite Hurl, bind_deref_Some, !result_log_Printf.
  rewrite Hu, bind_deref_Some, Hlogin, bind_deref_Some, Hname, bind_deref_Some,
    Htsha, bind_deref_Some.
  destruct (Git_CreateTree w login name tsha (f_changes found))
    as [newTree | err] eqn:Hnew; [rewrite result_call_Ok | discriminate].
  destruct (new_tree_complete w Hc _ _ _ _ _ Hnew) as [ntsha Hntsha].
  rewrite Hntsha, bind_deref_Some, !result_log_Printf. cbv zeta.
  destruct (Git_CreateCommit w login name _) as [comm | err] eqn:Hcomm;
    [rewrite result_call_Ok | discriminate].
  destruct (commit_complete w Hc _ _ _ _ Hcomm) as [csha Hcsha].
  rewrite Hcsha, bind_deref_Some, !result_log_Printf. cbv zeta.
  destruct (Git_CreateRef w login name _) as [newRef | err];
    [rewrite result_call_Ok | discriminate].
  rewrite !result_log_Printf. cbv zeta.
  destruct (PullRequests_Create w owner repo _) as [pr | err] eqn:Hpr;
    [rewrite result_call_Ok | discriminate].
  destruct (pull_complete w Hc _ _ _ _ Hpr) as [prurl Hprurl].
  rewrite Hprurl, bind_deref_Some. discriminate.
Qed.

(** X19.  The program is stopped by a nil pointer only when an answer
    lacks a field: if every answer of GitHub that is not an error carries
    the fields the program reads (type, path and hash of the entries, ids,
    names and URLs of what was created), no run dereferences nil, whatever
    the arguments, the failures and the order of the goroutines. *)
Theorem no_nil_dereference (w : World) (sched : list nat) (args : list string) :
  complete_answers w ->
  result (main w sched args) <> Halt NilDeref.
Proof.
  intros Hc.
  destruct (main_usage_or_run w sched args)
    as [(o & r & -> & Ho & Hr & Hm) | [_ Hm]]; rewrite Hm; [| discriminate].
  unfold run. rewrite result_bind.
  pose proof (discover_complete w sched o r Hc) as Hd.
  destruct (result (discover w sched o r)) as [found | [code |]];
    [| discriminate | destruct Hd].
  destruct (length (f_changes found) =? 0)%nat; [discriminate |].
  apply assemble_complete; assumption.
Qed.

Lemma no_nil_dereference_witness :
  complete_answers Demo.world
  /\ result (main Demo.world Demo.sched ["u/r"]) <> Halt NilDeref.
Proof.
  assert (Hc : complete_answers Demo.world).
  { constructor; simpl.
    - intros o r name ref [= <-]. simpl. eauto.
    - intros o r c recursive tree [= <-]. simpl. split; [eauto |].
      repeat constructor; simpl; eauto.
    - intros o r fork [= <-]. simpl. eauto 10.
    - intros o r b es t [= <-]. simpl. eauto.
    - intros o r c comm [= <-]. simpl. eauto.
    - intros o r p pr [= <-]. simpl. eauto. }
  split; [exact Hc |].
  exact (no_nil_dereference Demo.world Demo.sched ["u/r"] Hc).
Defined.
